(** * PySim.QuantumSystems: a shallow embedding and its verified properties

    The development follows [src/PySim/QuantumSystems.py].  numpy's
    [complex128] scalars are complex numbers over the reals of the Standard
    Library: their sums and products are idealised as exact, while
    [np.sqrt] is the correctly rounded binary64 square root, of which the
    identities of the exact root ([sqrt(k)^2 = k]) do not hold.  A 2-D
    [ndarray] is a shape together with its indexing function; Python
    exceptions are the [Raise] branch of a result type; integer subscripts
    are [Z] and wrap around as in Python. *)

From Stdlib Require Import Reals Lra Lia ZArith String List Arith.
From Stdlib Require SpecFloat.
From stdpp Require Import base list.

(** ** Complex scalars *)

Module Cplx.
Local Open Scope R_scope.

Record C : Type := mk { re : R; im : R }.

Definition of_R (x : R) : C := mk x 0.
Definition of_nat (n : nat) : C := of_R (INR n).
Definition zero : C := of_R 0.
Definition one : C := of_R 1.
(** Python's [1j]. *)
Definition j : C := mk 0 1.

Definition add (a b : C) : C := mk (re a + re b) (im a + im b).
Definition opp (a : C) : C := mk (- re a) (- im a).
Definition sub (a b : C) : C := mk (re a - re b) (im a - im b).
Definition mul (a b : C) : C :=
  mk (re a * re b - im a * im b) (re a * im b + im a * re b).
Definition conj (a : C) : C := mk (re a) (- im a).

(** [sum n f] is [f 0 + f 1 + ... + f (n-1)]. *)
Fixpoint sum (n : nat) (f : nat -> C) : C :=
  match n with
  | O => zero
  | S n' => add (sum n' f) (f n')
  end.
End Cplx.

Abbreviation C := Cplx.C.

(** ** binary64 square roots

    [np.sqrt] rounds: it returns the binary64 number nearest the root.  The
    Standard Library's [SpecFloat] has the IEEE 754 operations as functions
    on sign, mantissa and exponent; with precision 53 and exponent bound
    1024 they are the binary64 ones. *)

Module Binary64.
Import SpecFloat.

Definition prec : Z := 53.
Definition emax : Z := 1024.

(** The binary64 number an integer converts to. *)
Definition of_nat (k : nat) : spec_float :=
  binary_normalize prec emax (Z.of_nat k) 0 false.

Definition sqrt (x : spec_float) : spec_float := SFsqrt prec emax x.
Definition div (x y : spec_float) : spec_float := SFdiv prec emax x y.

(** [2 ^ e] *)
Definition pow2 (e : Z) : R :=
  if (0 <=? e)%Z then IZR (2 ^ e) else (/ IZR (2 ^ (- e)))%R.

(** The real number a binary64 value denotes.  An infinity or a NaN denotes
    none; it is given 0 here, and nothing is stated where one arises. *)
Definition to_R (x : spec_float) : R :=
  match x with
  | S754_zero _ => 0%R
  | S754_finite s m e => (IZR (if s then Zneg m else Zpos m) * pow2 e)%R
  | S754_infinity _ => 0%R
  | S754_nan => 0%R
  end.

(** [np.sqrt(k)] for an integer [k] held in a float or complex array: the
    root of a non-negative real held as a complex number is real. *)
Definition sqrt_nat (k : nat) : R := to_R (sqrt (of_nat k)).

(** [1/np.sqrt(t)] for a float [t] *)
Definition inv_sqrt (t : spec_float) : R := to_R (div (of_nat 1) (sqrt t)).


Arguments sqrt_nat : simpl never.
Arguments inv_sqrt : simpl never.
End Binary64.

(** ** Python exceptions and the result monad *)

Inductive exn : Type :=
| IndexError
| ValueError
| AssertionError
| NameError
| AttributeError.

Inductive result (A : Type) : Type :=
| Ok (a : A)
| Raise (e : exn).
Arguments Ok {A} a.
Arguments Raise {A} e.

Definition bind {A B : Type} (m : result A) (k : A -> result B) : result B :=
  match m with
  | Ok a => k a
  | Raise e => Raise e
  end.

Notation "'let*' x ':=' m 'in' k" := (bind m (fun x => k))
  (at level 10, x name, m at level 100, k at level 200).

Definition is_ok {A : Type} (m : result A) : bool :=
  match m with Ok _ => true | Raise _ => false end.

(** [foldM f xs a] runs the body [f] of a [for x in xs] loop from state [a],
    stopping at the first exception. *)
Fixpoint foldM {A S : Type} (f : A -> S -> result S) (xs : list A) (s : S)
  : result S :=
  match xs with
  | [] => Ok s
  | x :: xs' => let* s' := f x s in foldM f xs' s'
  end.

(** ** The numpy fragment the module uses *)

Module Np.
Import Cplx.

(** A 2-D array: its shape and the entry at row [i], column [k]. *)
Record ndarray : Type := mkarr {
  nrows : nat;
  ncols : nat;
  item : nat -> nat -> C
}.

(** Python subscript [i] into an axis of length [n]: non-negative
    subscripts below [n] are themselves, [-n <= i < 0] wraps to [n + i],
    anything else is an [IndexError]. *)
Definition norm_index (n : nat) (i : Z) : result nat :=
  if (0 <=? i)%Z && (i <? Z.of_nat n)%Z then Ok (Z.to_nat i)
  else if (- Z.of_nat n <=? i)%Z && (i <? 0)%Z then Ok (Z.to_nat (i + Z.of_nat n))
  else Raise IndexError.

(** [range(a, b)] *)
Definition range (a b : nat) : list nat := seq a (b - a).

Definition zeros (r c : nat) : ndarray := mkarr r c (fun _ _ => zero).

Definition eye (n : nat) : ndarray :=
  mkarr n n (fun i k => if i =? k then one else zero).

(** [A[i, k] = v], in place. *)
Definition setitem (A : ndarray) (i k : Z) (v : C) : result ndarray :=
  let* i' := norm_index (nrows A) i in
  let* k' := norm_index (ncols A) k in
  Ok (mkarr (nrows A) (ncols A)
        (fun a b => if (a =? i') && (b =? k') then v else item A a b)).

(** [np.arange(a, b, dtype=np.complex128)] *)
Definition arange (a b : nat) : list C := map of_nat (range a b).

(** [np.sqrt(np.arange(a, b, dtype=np.complex128))]: the binary64 roots of
    the integers the array holds. *)
Definition sqrt_arange (a b : nat) : list C :=
  map (fun k => of_R (Binary64.sqrt_nat k)) (range a b).

(** [np.diag(v, k)] for a 1-D [v]: a square array of size [len(v) + |k|]
    with [v] on the [k]-th diagonal (above the main one for [k > 0],
    below it for [k < 0]). *)
Definition diag (v : list C) (k : Z) : ndarray :=
  let n := (length v + Z.abs_nat k)%nat in
  if (0 <=? k)%Z then
    mkarr n n (fun a b => if b =? a + Z.abs_nat k then nth a v zero else zero)
  else
    mkarr n n (fun a b => if a =? b + Z.abs_nat k then nth b v zero else zero).

(** [np.kron(A, B)] *)
Definition kron (A B : ndarray) : ndarray :=
  mkarr (nrows A * nrows B) (ncols A * ncols B)
    (fun a b => mul (item A (a / nrows B) (b / ncols B))
                    (item B (a mod nrows B) (b mod ncols B))).

(** [np.dot(A, B)]: a [ValueError] unless the inner sizes agree. *)
Definition dot (A B : ndarray) : result ndarray :=
  if ncols A =? nrows B then
    Ok (mkarr (nrows A) (ncols B)
          (fun a b => sum (ncols A) (fun m => mul (item A a m) (item B m b))))
  else Raise ValueError.

Definition transpose (A : ndarray) : ndarray :=
  mkarr (ncols A) (nrows A) (fun a b => item A b a).

Definition conj (A : ndarray) : ndarray :=
  mkarr (nrows A) (ncols A) (fun a b => Cplx.conj (item A a b)).

(** [c * A] for a scalar [c]. *)
Definition scale (c : C) (A : ndarray) : ndarray :=
  mkarr (nrows A) (ncols A) (fun a b => mul c (item A a b)).

(** numpy broadcasting of one axis: equal lengths, or one of them is 1. *)
Definition broadcast_dim (n m : nat) : result nat :=
  if n =? m then Ok n
  else if n =? 1 then Ok m
  else if m =? 1 then Ok n
  else Raise ValueError.

(** Subscript into an axis that may be stretched from length 1. *)
Definition bidx (n i : nat) : nat := if n =? 1 then 0 else i.

(** [op(A, B)] elementwise with broadcasting ([A + B], [A - B]). *)
Definition broadcast2 (op : C -> C -> C) (A B : ndarray) : result ndarray :=
  let* r := broadcast_dim (nrows A) (nrows B) in
  let* c := broadcast_dim (ncols A) (ncols B) in
  Ok (mkarr r c
        (fun a b => op (item A (bidx (nrows A) a) (bidx (ncols A) b))
                       (item B (bidx (nrows B) a) (bidx (ncols B) b)))).

Definition add := broadcast2 Cplx.add.
Definition subtract := broadcast2 Cplx.sub.

(** [A += B]: the broadcast shape must be the shape of [A]. *)
Definition iadd (A B : ndarray) : result ndarray :=
  let* S := add A B in
  if (nrows S =? nrows A) && (ncols S =? ncols A) then Ok S
  else Raise ValueError.

(** [A + c] and [A += c] for a Python scalar [c]. *)
Definition add_scalar (A : ndarray) (c : C) : ndarray :=
  mkarr (nrows A) (ncols A) (fun a b => Cplx.add (item A a b) c).

(** [v[idx]] for a 1-D array [v] and an integer index array [idx]. *)
Definition take {A : Type} (v : list A) (idx : list Z) : result (list A) :=
  foldM (fun i acc =>
           let* n := norm_index (length v) i in
           match v !! n with
           | Some x => Ok (acc ++ [x])
           | None => Raise IndexError
           end) idx [].

(** [np.prod] of a 1-D integer array. *)
Definition prod (v : list nat) : nat := fold_right Nat.mul 1 v.

(** Two arrays are the same array: same shape, same entries inside it. *)
Definition same (A B : ndarray) : Prop :=
  nrows A = nrows B /\ ncols A = ncols B /\
  forall a b, a < nrows A -> b < ncols A -> item A a b = item B a b.
End Np.

(** ** class Hamiltonian *)

Module Hamiltonian.
Import Np.

Record t : Type := mk {
  matrix : ndarray;
  interactionMatrix : option ndarray;
  dim : nat
}.

(** [Hamiltonian(matrix)] *)
Definition new (m : ndarray) : t := mk m None (nrows m).

(** What may stand on the right of [+]: another Hamiltonian (it has a
    [matrix] attribute), or a raw array or scalar (the [AttributeError]
    branch). *)
Inductive operand : Type :=
| Ham (h : t)
| Mat (m : ndarray)
| Scalar (c : C).

Definition __add__ (self : t) (other : operand) : result t :=
  match other with
  | Ham h => let* s := add (matrix self) (matrix h) in Ok (new s)
  | Mat m => let* s := add (matrix self) m in Ok (new s)
  | Scalar c => Ok (new (add_scalar (matrix self) c))
  end.

(** [self += other] returns [self] with its matrix updated in place. *)
Definition __iadd__ (self : t) (other : operand) : result t :=
  match other with
  | Ham h =>
      let* s := iadd (matrix self) (matrix h) in
      Ok (mk s (interactionMatrix self) (dim self))
  | Mat m =>
      let* s := iadd (matrix self) m in
      Ok (mk s (interactionMatrix self) (dim self))
  | Scalar c =>
      Ok (mk (add_scalar (matrix self) c) (interactionMatrix self) (dim self))
  end.

Definition superOpColStack (self : t) (interactionMatrix_flag : bool)
  : result ndarray :=
  let tmpEye := eye (dim self) in
  let* tmpMat :=
    if interactionMatrix_flag then
      match interactionMatrix self with
      | Some m => Ok m
      | None => Raise AttributeError
      end
    else Ok (matrix self) in
  subtract (kron (conj tmpMat) tmpEye) (kron tmpEye tmpMat).
End Hamiltonian.

(** ** classes QuantumSystem, SNO, SCQubit *)

(** The three classes form one inheritance chain; an instance records its
    class and the attributes its constructors set.  [T1], [T2] are floats:
    [None] for [np.Inf], the default, and a binary64 value otherwise. *)
Inductive pyclass : Type := QuantumSystem_cls | SNO_cls | SCQubit_cls.

Record instance : Type := mkinst {
  cls : pyclass;
  dim : nat;
  name : option string;
  omega : R;
  delta : R;
  T1 : option SpecFloat.spec_float;
  T2 : option SpecFloat.spec_float
}.

Definition isinstance_SNO (s : instance) : bool :=
  match cls s with QuantumSystem_cls => false | _ => true end.

Definition isinstance_SCQubit (s : instance) : bool :=
  match cls s with SCQubit_cls => true | _ => false end.

Module QuantumSystem.
Import Np.

Definition new (dim : nat) (name : option string) : instance :=
  mkinst QuantumSystem_cls dim name 0%R 0%R None None.

Definition zeros (self : instance) : ndarray := Np.zeros (dim self) (dim self).
End QuantumSystem.

Module SNO.
Import Cplx Np.

Definition new (numLevels : nat) (omega delta : R) (name : option string)
  : instance :=
  mkinst SNO_cls numLevels name omega delta None None.

(** The value stored at level [ct] by the body of the loop in [Hnat]. *)
Definition Hnat_entry (self : instance) (ct : nat) : C :=
  if ct =? 1 then of_R (INR ct * omega self)
  else if ct =? 2 then of_R (INR ct * omega self + delta self)
  else of_R (INR ct * omega self
             + delta self * IZR (Z.of_nat ct - 1) * INR ct / 2).

Definition Hnat (self : instance) : result Hamiltonian.t :=
  if isinstance_SNO self then
    let* H :=
      foldM (fun ct H => setitem H (Z.of_nat ct) (Z.of_nat ct) (Hnat_entry self ct))
            (range 1 (dim self)) (QuantumSystem.zeros self) in
    Ok (Hamiltonian.new H)
  else Raise AttributeError.

Definition raisingOp (self : instance) : result ndarray :=
  if isinstance_SNO self then
    Ok (diag (sqrt_arange 1 (dim self)) (-1))
  else Raise AttributeError.

Definition loweringOp (self : instance) : result ndarray :=
  if isinstance_SNO self then
    Ok (diag (sqrt_arange 1 (dim self)) 1)
  else Raise AttributeError.

Definition numberOp (self : instance) : result ndarray :=
  if isinstance_SNO self then Ok (diag (arange 0 (dim self)) 0)
  else Raise AttributeError.

Definition levelProjector (self : instance) (level : Z) : result ndarray :=
  if isinstance_SNO self then
    setitem (QuantumSystem.zeros self) level level one
  else Raise AttributeError.
End SNO.

Module SCQubit.
Import Cplx Np.

Definition new (numLevels : nat) (omega delta : R) (name : option string)
    (T1 T2 : option SpecFloat.spec_float) : instance :=
  mkinst SCQubit_cls numLevels name omega delta T1 T2.

(** [assert self.dim > 1] *)
Definition assert_dim (self : instance) : result unit :=
  if 1 <? dim self then Ok tt else Raise AssertionError.

Definition pauliZ (self : instance) : result ndarray :=
  if isinstance_SCQubit self then
    let* _ := assert_dim self in
    let tmpMat := QuantumSystem.zeros self in
    let* tmpMat := setitem tmpMat 0 0 one in
    setitem tmpMat 1 1 (opp one)
  else Raise AttributeError.

Definition pauliX (self : instance) : result ndarray :=
  if isinstance_SCQubit self then
    let* _ := assert_dim self in
    let tmpMat := QuantumSystem.zeros self in
    let* tmpMat := setitem tmpMat 0 1 one in
    setitem tmpMat 1 0 one
  else Raise AttributeError.

Definition pauliY (self : instance) : result ndarray :=
  if isinstance_SCQubit self then
    let* _ := assert_dim self in
    let tmpMat := QuantumSystem.zeros self in
    let* tmpMat := setitem tmpMat 0 1 (opp j) in
    setitem tmpMat 1 0 j
  else Raise AttributeError.

(** [(1/np.sqrt(self.T1))*self.loweringOp].  [T1] is a decay time: a
    positive float, or [None] for [np.Inf], where [1/np.sqrt(np.Inf)] is [0.0].
    For [T1 <= 0] numpy yields [nan] or [inf] entries, which the real scalars
    do not hold; nothing is stated about that case. *)
Definition T1Dissipator (self : instance) : result ndarray :=
  if isinstance_SCQubit self then
    let c := match T1 self with
             | Some t => Binary64.inv_sqrt t
             | None => 0%R
             end in
    let* L := SNO.loweringOp self in
    Ok (scale (of_R c) L)
  else Raise AttributeError.
End SCQubit.

(** ** class Dissipator *)

Module Dissipator.
Import Cplx Np.

Record t : Type := mk { matrix : ndarray; dim : nat }.

(** [Dissipator(mat)] *)
Definition new (mat : ndarray) : t := mk mat (nrows mat).

Definition half : C := of_R (1 / 2).

Definition superOpColStack (self : t) : result ndarray :=
  let L := matrix self in
  let tmpEye := eye (dim self) in
  let a := kron (conj L) L in
  let* LdL := dot (transpose (conj L)) L in
  let b := scale half (kron tmpEye LdL) in
  let* ab := subtract a b in
  let* LtLc := dot (transpose L) (conj L) in
  let c := scale half (kron LtLc tmpEye) in
  subtract ab c.
End Dissipator.

(** ** class Interaction *)

Module Interaction.
Import Cplx Np.

Record t : Type := mk {
  system1 : instance;
  system2 : instance;
  interactionType : string;
  interactionStrength : R;
  matrix : option ndarray
}.

Definition set_matrix (self : t) (m : ndarray) : t :=
  mk (system1 self) (system2 self) (interactionType self)
     (interactionStrength self) (Some m).

Definition createMat (self : t) : result t :=
  if String.eqb (interactionType self) "ZZ" then
    let* zA := SCQubit.pauliZ (system1 self) in
    let* zB := SCQubit.pauliZ (system2 self) in
    Ok (set_matrix self
          (scale (of_R (0.25 * interactionStrength self)) (kron zA zB)))
  else if String.eqb (interactionType self) "FlipFlop" then
    let* lA := SNO.loweringOp (system1 self) in
    let* rB := SNO.raisingOp (system2 self) in
    let k1 := kron lA rB in
    let* rA := SNO.raisingOp (system1 self) in
    let* lB := SNO.loweringOp (system2 self) in
    let k2 := kron rA lB in
    let* s := add k1 k2 in
    Ok (set_matrix self (scale (of_R (interactionStrength self)) s))
  else Raise NameError.

(** [Interaction(system1, system2, interactionType, interactionStrength,
    interactionMat)] *)
Definition new (system1 system2 : instance) (interactionType : string)
    (interactionStrength : R) (interactionMat : option ndarray) : result t :=
  createMat (mk system1 system2 interactionType interactionStrength
                interactionMat).
End Interaction.

(** ** expand_hilbert_space *)

Module Expand.
Import Cplx Np.

(** The nested helper of [expand_hilbert_space]. *)
Definition calc_perm_mat (dim1 dim2 : nat) : result ndarray :=
  let totDim := dim1 * dim2 in
  let tmpP := zeros totDim totDim in
  foldM (fun ct1 tmpP =>
           foldM (fun ct2 tmpP =>
                    setitem tmpP (Z.of_nat (ct1 * dim2 + ct2))
                                 (Z.of_nat (ct2 * dim1 + ct1)) one)
                 (range 0 dim2) tmpP)
        (range 0 dim1) tmpP.

(** [np.nonzero(curIndices == ct)[0][0]]: the first position holding [ct];
    subscripting the empty array of positions is an [IndexError]. *)
Fixpoint first_index (ct : Z) (l : list Z) : option nat :=
  match l with
  | [] => None
  | x :: l' => if (x =? ct)%Z then Some 0 else S <$> first_index ct l'
  end.

Definition nonzero_first (curIndices : list Z) (ct : nat) : result nat :=
  match first_index (Z.of_nat ct) curIndices with
  | Some p => Ok p
  | None => Raise IndexError
  end.

(** [v[i]] for a single integer subscript. *)
Definition getitem {A : Type} (v : list A) (i : Z) : result A :=
  let* n := norm_index (length v) i in
  match v !! n with
  | Some x => Ok x
  | None => Raise IndexError
  end.

(** [v[i] = x] *)
Definition setitem1 {A : Type} (v : list A) (i : Z) (x : A) : result (list A) :=
  let* n := norm_index (length v) i in Ok (<[n := x]> v).

(** [curIndices[[a, b]] = curIndices[[b, a]]] *)
Definition swap_items (v : list Z) (a b : Z) : result (list Z) :=
  let* xb := getitem v b in
  let* xa := getitem v a in
  let* v := setitem1 v a xb in
  setitem1 v b xa.

(** The dtype of [curIndices].  [np.array([])] is a float64 array, and
    [np.hstack] of a float64 and an integer array is float64: [curIndices]
    holds floats exactly when one of the two subsystem lists is empty. *)
Definition float_indices (operatorSubSystems eyeSubSystems : list Z) : bool :=
  (length operatorSubSystems =? 0) || (length eyeSubSystems =? 0).

(** [v[idx]] for [idx] a slice of [curIndices]: numpy refuses an array of
    floats as an index array, with an [IndexError], whatever it holds, an
    empty slice included. *)
Definition take_slice {A : Type} (float_index : bool) (v : list A)
    (idx : list Z) : result (list A) :=
  if float_index then Raise IndexError else take v idx.

(** The loop state: the tracked ordering and the accumulated permutation. *)
Definition state : Type := (list Z * ndarray)%type.

(** One pass through the body of the [while] loop; [float_index] tells
    whether [curIndices] is a float array. *)
Definition swap_step (float_index : bool) (dimensions : list nat) (ct : nat)
    (st : state) : result state :=
  let '(curIndices, totP) := st in
  let* curInd := nonzero_first curIndices ct in
  let* d1 := getitem dimensions (Z.of_nat curInd) in
  let* d2 := getitem dimensions (Z.of_nat curInd - 1) in
  let* tmpP := calc_perm_mat d1 d2 in
  let* preDim :=
    if 1 <? curInd then
      let* ds :=
        take_slice float_index dimensions (firstn (curInd - 1) curIndices) in
      Ok (prod ds)
    else Ok 1 in
  let* postDim :=
    if (Z.of_nat curInd <? Z.of_nat (length dimensions) - 1)%Z then
      let* ds :=
        take_slice float_index dimensions (skipn (curInd + 1) curIndices) in
      Ok (prod ds)
    else Ok 1 in
  let* totP := dot (kron (kron (eye preDim) tmpP) (eye postDim)) totP in
  let* curIndices :=
    swap_items curIndices (Z.of_nat curInd - 1) (Z.of_nat curInd) in
  Ok (curIndices, totP).

(** [while ct < curIndices[ct]: ...], bounded by [fuel] passes; [None]
    means the bound was reached with the condition still true. *)
Fixpoint while_loop (fuel : nat) (float_index : bool)
    (dimensions : list nat) (ct : nat) (st : state)
  : option (result state) :=
  match fuel with
  | O => None
  | S fuel' =>
      match getitem (fst st) (Z.of_nat ct) with
      | Raise e => Some (Raise e)
      | Ok x =>
          if (Z.of_nat ct <? x)%Z then
            match swap_step float_index dimensions ct st with
            | Raise e => Some (Raise e)
            | Ok st' => while_loop fuel' float_index dimensions ct st'
            end
          else Some (Ok st)
      end
  end.

(** [for ct in range(curIndices.size): while ...] *)
Fixpoint for_loop (fuel : nat) (float_index : bool)
    (dimensions : list nat) (cts : list nat) (st : state)
  : option (result state) :=
  match cts with
  | [] => Some (Ok st)
  | ct :: cts' =>
      match while_loop fuel float_index dimensions ct st with
      | None => None
      | Some (Raise e) => Some (Raise e)
      | Some (Ok st') => for_loop fuel float_index dimensions cts' st'
      end
  end.

(** [expand_hilbert_space(operator, operatorSubSystems, eyeSubSystems,
    dimensions)].  Every [while] loop is given [curIndices.size + 1]
    passes, which [expand_hilbert_space_terminates] shows is never
    exhausted: the outcome is always [Some]. *)
Definition expand_hilbert_space (operator : ndarray)
    (operatorSubSystems eyeSubSystems : list Z) (dimensions : list nat)
  : option (result ndarray) :=
  match
    (if 0 <? length eyeSubSystems then
       let* ds := take dimensions eyeSubSystems in Ok (prod ds)
     else Ok 1)
  with
  | Raise e => Some (Raise e)
  | Ok dimEye =>
      let tmpMat := kron operator (eye dimEye) in
      let curIndices := operatorSubSystems ++ eyeSubSystems in
      let totP := eye (nrows tmpMat) in
      match
        for_loop (S (length curIndices))
                 (float_indices operatorSubSystems eyeSubSystems) dimensions
                 (range 0 (length curIndices)) (curIndices, totP)
      with
      | None => None
      | Some (Raise e) => Some (Raise e)
      | Some (Ok (_, totP)) =>
          Some (let* a := dot totP tmpMat in dot a (transpose totP))
      end
  end.

(** The loop invariant: what the loop has established once positions below [ct] are done:
    each of them holds an index not above its position. *)
Definition settled (ct : nat) (cur : list Z) : Prop :=
  forall p v, p < ct -> cur !! p = Some v -> (v <= Z.of_nat p)%Z.

(** *** The embedding the specification describes

    These definitions follow the specification's words, not the code: they
    are what [expand_hilbert_space] is compared with. *)

(** Mixed-radix digits of a basis index, outermost factor first. *)
Fixpoint digits (dims : list nat) (i : nat) : list nat :=
  match dims with
  | [] => []
  | _ :: ds => (i / prod ds) :: digits ds (i mod prod ds)
  end.

Fixpoint undigits (dims : list nat) (ds : list nat) : nat :=
  match dims, ds with
  | _ :: dims', x :: ds' => x * prod dims' + undigits dims' ds'
  | _, _ => 0
  end.

(** The index, in the basis whose factors are ordered as [order], of the
    canonical basis state [i]. *)
Definition reorder (order dims : list nat) (i : nat) : nat :=
  undigits (map (fun q => nth q dims 1) order)
           (map (fun q => nth q (digits dims i) 0) order).

(** The permutation matrix taking the basis ordered as [order] to the
    canonical one. *)
Definition basis_perm (order dims : list nat) : ndarray :=
  mkarr (prod dims) (prod dims)
    (fun a b => if b =? reorder order dims a then one else zero).

(** [P * (operator kron I) * P^T] *)
Definition embedding_spec (operator : ndarray) (acting passive dims : list nat)
  : result ndarray :=
  let P := basis_perm (acting ++ passive) dims in
  let I := eye (prod (map (fun q => nth q dims 1) passive)) in
  let* a := dot P (kron operator I) in
  dot a (transpose P).
End Expand.

(** ** Matrices the specification names

    These follow the specification's wording and are what the operators
    built by the code are compared with. *)

Module SpecMat.
Import Cplx Np.

(** The identity on the lowest two levels, [diag(1, 1, 0, ..., 0)]. *)
Definition qubit_identity (d : nat) : ndarray :=
  mkarr d d (fun a b => if (a =? b) && (a <? 2) then one else zero).

(** [diag(0, 1, ..., d-1)] *)
Definition number_diag (d : nat) : ndarray :=
  mkarr d d (fun a b => if a =? b then of_nat a else zero).

(** The conjugate transpose. *)
Definition dagger (A : ndarray) : ndarray := transpose (conj A).

(** Entrywise sum and difference, and the product, of matrices whose shapes
    fit. *)
Definition mat_add (A B : ndarray) : ndarray :=
  mkarr (nrows A) (ncols A) (fun a b => Cplx.add (item A a b) (item B a b)).

Definition mat_sub (A B : ndarray) : ndarray :=
  mkarr (nrows A) (ncols A) (fun a b => Cplx.sub (item A a b) (item B a b)).

Definition mat_mul (A B : ndarray) : ndarray :=
  mkarr (nrows A) (ncols B)
    (fun a b => sum (ncols A) (fun m => mul (item A a m) (item B m b))).

(** [(conj(L) kron L) - 0.5*(I kron (L^dagger L)) - 0.5*((L^T conj(L)) kron I)]
    with [I] the [d x d] identity. *)
Definition lindblad_term (d : nat) (L : ndarray) : ndarray :=
  mat_sub
    (mat_sub (kron (conj L) L)
             (scale (of_R (1 / 2)) (kron (eye d) (mat_mul (dagger L) L))))
    (scale (of_R (1 / 2)) (kron (mat_mul (transpose L) (conj L)) (eye d))).

(** The array an operand of [+] contributes, when it is not a scalar. *)
Definition operand_matrix (other : Hamiltonian.operand) : option ndarray :=
  match other with
  | Hamiltonian.Ham h => Some (Hamiltonian.matrix h)
  | Hamiltonian.Mat m => Some m
  | Hamiltonian.Scalar _ => None
  end.

End SpecMat.

(** ** Permutations of basis states

    The vocabulary in which the reordering loop is analysed: permutation
    matrices by their index maps, and the map the loop is tracking. *)

Module Perm.
Import Cplx Np.

(** [is_perm_of n g P]: inside its [n x n] shape, [P] has a single 1 in each
    row [a], in column [g a]. *)
Definition is_perm_of (n : nat) (g : nat -> nat) (P : ndarray) : Prop :=
  nrows P = n /\ ncols P = n /\
  (forall a, a < n -> g a < n) /\
  forall a b, a < n -> b < n -> item P a b = if b =? g a then one else zero.

(** The column of the 1 in row [a] of [calc_perm_mat(dim1, dim2)]:
    [ct1*dim2 + ct2] goes to [ct2*dim1 + ct1]. *)
Definition swap_index (dim1 dim2 a : nat) : nat := (a mod dim2) * dim1 + a / dim2.

(** The index map of [kron(kron(eye(pre), P), eye(post))] when [P] is the
    permutation matrix of [h] on [m] basis states. *)
Definition lift_index (m post : nat) (h : nat -> nat) (a : nat) : nat :=
  (a / post / m * m + h (a / post mod m)) * post + a mod post.




End Perm.

(** ** Properties of matrices used in the statements *)

Module Algebra.
Import Cplx Np SpecMat Perm.

(** [A] equals its conjugate transpose. *)
Definition hermitian (A : ndarray) : Prop := same A (dagger A).


(** [g] sends distinct indices below [n] to distinct indices. *)
Definition injective_below (n : nat) (g : nat -> nat) : Prop :=
  forall a b, a < n -> b < n -> g a = g b -> a = b.

(** [g] permutes the indices below [n]. *)
Definition bijective_below (n : nat) (g : nat -> nat) : Prop :=
  (forall a, a < n -> g a < n) /\ injective_below n g.

(** [P] is the [n x n] permutation matrix of [g], a permutation of the
    indices below [n]. *)
Definition perm_matrix (n : nat) (g : nat -> nat) (P : ndarray) : Prop :=
  is_perm_of n g P /\ injective_below n g.

(** The entry [(a, b)] of the array a call returned, 0 if it raised. *)
Definition item_of (r : result ndarray) (a b : nat) : C :=
  match r with
  | Ok A => item A a b
  | Raise _ => zero
  end.
End Algebra.

(** * Properties *)

(** ** Arithmetic of the scalars *)

Section CplxFacts.
Import Cplx.
Local Open Scope R_scope.

Lemma C_eq (a b : C) : re a = re b -> im a = im b -> a = b.
Proof. destruct a, b; simpl; intros -> ->; reflexivity. Qed.

Lemma add_zero_l a : add zero a = a.
Proof. apply C_eq; simpl; lra. Qed.

Lemma add_zero_r a : add a zero = a.
Proof. apply C_eq; simpl; lra. Qed.

Lemma mul_zero_l a : mul zero a = zero.
Proof. apply C_eq; simpl; lra. Qed.

Lemma mul_zero_r a : mul a zero = zero.
Proof. apply C_eq; simpl; lra. Qed.

Lemma mul_one_l a : mul one a = a.
Proof. apply C_eq; simpl; lra. Qed.

Lemma mul_one_r a : mul a one = a.
Proof. apply C_eq; simpl; lra. Qed.

Lemma sub_zero_r a : sub a zero = a.
Proof. apply C_eq; simpl; lra. Qed.

Lemma conj_zero : conj zero = zero.
Proof. apply C_eq; simpl; lra. Qed.

Lemma conj_of_R x : conj (of_R x) = of_R x.
Proof. apply C_eq; simpl; lra. Qed.

Lemma one_neq_zero : one <> zero.
Proof. intros H. apply (f_equal re) in H. simpl in H. lra. Qed.


Lemma sqrt_nat_1 : Binary64.sqrt_nat 1 = 1.
Proof.
  unfold Binary64.sqrt_nat.
  replace (Binary64.sqrt (Binary64.of_nat 1))
    with (SpecFloat.S754_finite false 4503599627370496 (-52))
    by (vm_compute; reflexivity).
  cbv [Binary64.to_R Binary64.pow2].
  change (0 <=? -52)%Z with false. cbv iota.
  change (2 ^ (- (-52)))%Z with 4503599627370496%Z. lra.
Qed.






Lemma sum_ext n f g : (forall m, (m < n)%nat -> f m = g m) -> sum n f = sum n g.
Proof.
  induction n as [|n IH]; intros H; simpl; [reflexivity|].
  rewrite IH by (intros; apply H; lia). rewrite H by lia. reflexivity.
Qed.

Lemma sum_zero n f : (forall m, (m < n)%nat -> f m = zero) -> sum n f = zero.
Proof.
  induction n as [|n IH]; intros H; simpl; [reflexivity|].
  rewrite IH by (intros; apply H; lia). rewrite H by lia. apply add_zero_l.
Qed.

(** A sum with a single non-zero term. *)
Lemma sum_single n f p :
  (p < n)%nat -> (forall m, (m < n)%nat -> m <> p -> f m = zero) ->
  sum n f = f p.
Proof.
  induction n as [|n IH]; intros Hp H; [lia|]. simpl.
  destruct (Nat.eq_dec p n) as [->|Hne].
  - rewrite sum_zero by (intros; apply H; lia). apply add_zero_l.
  - rewrite IH by (try lia; intros; apply H; lia).
    rewrite (H n) by lia. apply add_zero_r.
Qed.
End CplxFacts.

(** ** Subscripts and in-place assignment *)

Section NpFacts.
Import Cplx Np.

Lemma norm_index_nonneg n i :
  (0 <= i < Z.of_nat n)%Z -> norm_index n i = Ok (Z.to_nat i).
Proof.
  intros H. unfold norm_index.
  destruct (Z.leb_spec 0 i), (Z.ltb_spec i (Z.of_nat n)); simpl; try lia.
  reflexivity.
Qed.

Lemma norm_index_of_nat n i : i < n -> norm_index n (Z.of_nat i) = Ok i.
Proof. intros H. rewrite norm_index_nonneg by lia. by rewrite Nat2Z.id. Qed.

Lemma norm_index_neg n i :
  (- Z.of_nat n <= i < 0)%Z -> norm_index n i = Ok (Z.to_nat (i + Z.of_nat n)).
Proof.
  intros H. unfold norm_index.
  destruct (Z.leb_spec 0 i); simpl; [lia|].
  destruct (Z.leb_spec (- Z.of_nat n) i), (Z.ltb_spec i 0); simpl; try lia.
  reflexivity.
Qed.

Lemma norm_index_out n i :
  (i < - Z.of_nat n \/ Z.of_nat n <= i)%Z -> norm_index n i = Raise IndexError.
Proof.
  intros H. unfold norm_index.
  destruct (Z.leb_spec 0 i), (Z.ltb_spec i (Z.of_nat n)),
    (Z.leb_spec (- Z.of_nat n) i), (Z.ltb_spec i 0); simpl; try lia;
    reflexivity.
Qed.

Lemma norm_index_ok_range n i m :
  norm_index n i = Ok m -> (- Z.of_nat n <= i < Z.of_nat n)%Z /\ m < n.
Proof.
  unfold norm_index.
  destruct (Z.leb_spec 0 i), (Z.ltb_spec i (Z.of_nat n)),
    (Z.leb_spec (- Z.of_nat n) i), (Z.ltb_spec i 0); simpl;
    intros [= <-]; lia.
Qed.

Lemma setitem_of_nat A i k v :
  i < nrows A -> k < ncols A ->
  setitem A (Z.of_nat i) (Z.of_nat k) v =
  Ok (mkarr (nrows A) (ncols A)
        (fun a b => if (a =? i) && (b =? k) then v else item A a b)).
Proof.
  intros Hi Hk. unfold setitem.
  rewrite !norm_index_of_nat by assumption. reflexivity.
Qed.
End NpFacts.

(** ** SNO.levelProjector *)

Section LevelProjector.
Import Cplx Np.

(** C10: [levelProjector(level)] fails exactly when [level >= d] or
    [level < -d]; a negative level in [-d .. -1] is not rejected: it wraps
    around and the result is the projector onto level [d + level], a single
    1 at [(d + level, d + level)]. *)
Theorem levelProjector_negative_level_wraps (self : instance) (level : Z) :
  isinstance_SNO self = true -> 1 <= dim self ->
  let d := Z.of_nat (dim self) in
  (is_ok (SNO.levelProjector self level) = false
     <-> (level >= d \/ level < - d)%Z) /\
  ((- d <= level <= -1)%Z ->
     exists P, SNO.levelProjector self level = Ok P /\
       nrows P = dim self /\ ncols P = dim self /\
       forall a b,
         item P a b =
         if (a =? Z.to_nat (d + level)) && (b =? Z.to_nat (d + level))
         then one else zero).
Proof.
  intros Hcls Hd d. unfold SNO.levelProjector. rewrite Hcls.
  unfold setitem, QuantumSystem.zeros, zeros; simpl. fold d.
  split.
  - destruct (Z_lt_ge_dec level (- d)) as [Hlo|Hlo].
    { rewrite norm_index_out by (subst d; lia). simpl. split; [lia|done]. }
    destruct (Z_lt_ge_dec level d) as [Hhi|Hhi].
    2:{ rewrite norm_index_out by (subst d; lia). simpl. split; [lia|done]. }
    destruct (Z_lt_ge_dec level 0) as [Hneg|Hneg].
    + rewrite norm_index_neg by (subst d; lia). simpl.
      split; [discriminate|lia].
    + rewrite norm_index_nonneg by (subst d; lia). simpl.
      split; [discriminate|lia].
  - intros Hrange. rewrite norm_index_neg by (subst d; lia). simpl.
    eexists. split; [reflexivity|]. simpl. subst d.
    replace (level + Z.of_nat (dim self))%Z
      with (Z.of_nat (dim self) + level)%Z by lia.
    auto.
Qed.

Lemma levelProjector_negative_level_wraps_witness :
  (is_ok (SNO.levelProjector (SNO.new 3 0 0 None) (-1)) = false
     <-> (-1 >= 3 \/ -1 < - 3)%Z) /\
  ((- 3 <= -1 <= -1)%Z ->
     exists P, SNO.levelProjector (SNO.new 3 0 0 None) (-1) = Ok P /\
       nrows P = 3 /\ ncols P = 3 /\
       forall a b,
         item P a b = if (a =? 2) && (b =? 2) then one else zero).
Proof.
  apply (levelProjector_negative_level_wraps (SNO.new 3 0 0 None) (-1)).
  - reflexivity.
  - simpl. lia.
Defined.
End LevelProjector.

(** ** SCQubit: the Pauli operators *)

Section Pauli.
Import Cplx Np SpecMat.

Lemma sum_two n f :
  (2 <= n)%nat -> (forall m, (2 <= m)%nat -> (m < n)%nat -> f m = zero) ->
  sum n f = Cplx.add (f 0%nat) (f 1%nat).
Proof.
  induction n as [|n IH]; intros Hn H; [lia|].
  destruct (Nat.eq_dec n 1) as [->|Hne].
  - simpl. rewrite add_zero_l. reflexivity.
  - simpl. rewrite IH by (try lia; intros; apply H; lia).
    rewrite (H n) by lia. apply add_zero_r.
Qed.

Lemma pauliX_item self :
  isinstance_SCQubit self = true -> (2 <= dim self)%nat ->
  SCQubit.pauliX self =
  Ok (mkarr (dim self) (dim self)
        (fun a b => if (a =? 1)%nat && (b =? 0)%nat then one
                    else if (a =? 0)%nat && (b =? 1)%nat then one else zero)).
Proof.
  intros Hc Hd. unfold SCQubit.pauliX, SCQubit.assert_dim. rewrite Hc.
  destruct (Nat.ltb_spec 1 (dim self)); [|lia]. simpl.
  change 0%Z with (Z.of_nat 0). change 1%Z with (Z.of_nat 1).
  rewrite setitem_of_nat by (simpl; lia). simpl.
  rewrite setitem_of_nat by (simpl; lia). reflexivity.
Qed.

Lemma pauliY_item self :
  isinstance_SCQubit self = true -> (2 <= dim self)%nat ->
  SCQubit.pauliY self =
  Ok (mkarr (dim self) (dim self)
        (fun a b => if (a =? 1)%nat && (b =? 0)%nat then j
                    else if (a =? 0)%nat && (b =? 1)%nat then opp j else zero)).
Proof.
  intros Hc Hd. unfold SCQubit.pauliY, SCQubit.assert_dim. rewrite Hc.
  destruct (Nat.ltb_spec 1 (dim self)); [|lia]. simpl.
  change 0%Z with (Z.of_nat 0). change 1%Z with (Z.of_nat 1).
  rewrite setitem_of_nat by (simpl; lia). simpl.
  rewrite setitem_of_nat by (simpl; lia). reflexivity.
Qed.

Lemma pauliZ_item self :
  isinstance_SCQubit self = true -> (2 <= dim self)%nat ->
  SCQubit.pauliZ self =
  Ok (mkarr (dim self) (dim self)
        (fun a b => if (a =? 1)%nat && (b =? 1)%nat then opp one
                    else if (a =? 0)%nat && (b =? 0)%nat then one else zero)).
Proof.
  intros Hc Hd. unfold SCQubit.pauliZ, SCQubit.assert_dim. rewrite Hc.
  destruct (Nat.ltb_spec 1 (dim self)); [|lia]. simpl.
  change 0%Z with (Z.of_nat 0). change 1%Z with (Z.of_nat 1).
  rewrite setitem_of_nat by (simpl; lia). simpl.
  rewrite setitem_of_nat by (simpl; lia). reflexivity.
Qed.

(** Products of arrays supported on the lowest two levels. *)
Ltac two_level_product :=
  unfold dot; simpl; rewrite Nat.eqb_refl; eexists; split; [reflexivity|];
  repeat split; simpl; intros a b Ha Hb;
  rewrite sum_two by
    (try lia; intros [|[|m]] ? ?; try lia; simpl;
     rewrite ?Bool.andb_false_r; apply mul_zero_l);
  destruct a as [|[|a]], b as [|[|b]]; simpl;
  rewrite ?Bool.andb_false_r;
  apply C_eq; simpl; lra.

(** C9: for an SCQubit of dimension [d >= 2] the three Pauli operators
    square to the identity on the lowest two levels, [diag(1,1,0,...,0)],
    and [pauliX . pauliY = 1j * pauliZ], as exact matrix products. *)
Theorem pauli_algebra (self : instance) :
  isinstance_SCQubit self = true -> (2 <= dim self)%nat ->
  exists X Y Z,
    SCQubit.pauliX self = Ok X /\
    SCQubit.pauliY self = Ok Y /\
    SCQubit.pauliZ self = Ok Z /\
    (exists XX, dot X X = Ok XX /\ same XX (qubit_identity (dim self))) /\
    (exists YY, dot Y Y = Ok YY /\ same YY (qubit_identity (dim self))) /\
    (exists ZZ, dot Z Z = Ok ZZ /\ same ZZ (qubit_identity (dim self))) /\
    (exists XY, dot X Y = Ok XY /\ same XY (scale j Z)).
Proof.
  intros Hc Hd.
  eexists _, _, _.
  split; [apply pauliX_item; assumption|].
  split; [apply pauliY_item; assumption|].
  split; [apply pauliZ_item; assumption|].
  split; [|split; [|split]]; two_level_product.
Qed.

Lemma pauli_algebra_witness :
  let self := SCQubit.new 3 0 0 None None None in
  exists X Y Z,
    SCQubit.pauliX self = Ok X /\
    SCQubit.pauliY self = Ok Y /\
    SCQubit.pauliZ self = Ok Z /\
    (exists XX, dot X X = Ok XX /\ same XX (qubit_identity 3)) /\
    (exists YY, dot Y Y = Ok YY /\ same YY (qubit_identity 3)) /\
    (exists ZZ, dot Z Z = Ok ZZ /\ same ZZ (qubit_identity 3)) /\
    (exists XY, dot X Y = Ok XY /\ same XY (scale j Z)).
Proof.
  apply (pauli_algebra (SCQubit.new 3 0 0 None None None)).
  - reflexivity.
  - simpl. lia.
Defined.
End Pauli.

(** ** SNO: natural Hamiltonian *)

Section Hnat.
Import Cplx Np.

(** A [for ct in range(s, s+len): H[ct, ct] = g(ct)] loop that stays inside
    a square array overwrites exactly the diagonal entries it visits. *)
Lemma diag_loop (g : nat -> C) (len s : nat) (H : ndarray) :
  nrows H = ncols H -> s + len <= nrows H ->
  exists H',
    foldM (fun ct H => setitem H (Z.of_nat ct) (Z.of_nat ct) (g ct))
          (seq s len) H = Ok H' /\
    nrows H' = nrows H /\ ncols H' = ncols H /\
    forall a b,
      item H' a b =
      if (a =? b) && (s <=? a) && (a <? s + len) then g a else item H a b.
Proof.
  revert s H. induction len as [|len IH]; intros s H Hsq Hle; simpl.
  - exists H. repeat split; try reflexivity. intros a b.
    destruct (Nat.ltb_spec a (s + 0)), (Nat.leb_spec s a); try lia;
      rewrite ?Bool.andb_false_r; reflexivity.
  - rewrite setitem_of_nat by lia. simpl.
    destruct (IH (S s)
                (mkarr (nrows H) (ncols H)
                   (fun a b => if (a =? s) && (b =? s) then g s
                               else item H a b)))
      as (H' & Hrun & Hr & Hc & Hitem); simpl; try lia.
    exists H'. split; [exact Hrun|]. split; [exact Hr|]. split; [exact Hc|].
    intros a b. rewrite Hitem. cbn [item].
    destruct (Nat.eqb_spec a b), (Nat.eqb_spec a s), (Nat.eqb_spec b s),
      (Nat.leb_spec (S s) a), (Nat.leb_spec s a),
      (Nat.ltb_spec a (S s + len)), (Nat.ltb_spec a (s + S len));
      cbn [andb]; try lia; subst; reflexivity.
Qed.

(** C5: [Hnat] is the [d x d] diagonal matrix whose entry at level [k] is
    0 for [k = 0], [k * omega] for [k = 1], and
    [k * omega + delta * (k-1) * k / 2] for [k >= 2]; off the diagonal it is
    zero. *)
Theorem Hnat_diagonal (self : instance) :
  isinstance_SNO self = true ->
  exists H,
    SNO.Hnat self = Ok H /\
    Hamiltonian.dim H = dim self /\
    nrows (Hamiltonian.matrix H) = dim self /\
    ncols (Hamiltonian.matrix H) = dim self /\
    forall k l, k < dim self -> l < dim self ->
      item (Hamiltonian.matrix H) k l =
      if k =? l then
        if k =? 0 then zero
        else if k =? 1 then of_R (INR k * omega self)
        else of_R (INR k * omega self
                   + delta self * (INR k - 1) * INR k / 2)
      else zero.
Proof.
  intros Hc. unfold SNO.Hnat. rewrite Hc. unfold range.
  destruct (Nat.eq_dec (dim self) 0) as [Hz|Hnz].
  { rewrite Hz. simpl. eexists. split; [reflexivity|]. simpl.
    unfold QuantumSystem.zeros. rewrite Hz. simpl.
    repeat split; try reflexivity. intros; lia. }
  destruct (diag_loop (SNO.Hnat_entry self) (dim self - 1) 1
              (QuantumSystem.zeros self))
    as (H' & Hrun & Hr & Hcl & Hitem).
  { reflexivity. }
  { simpl. lia. }
  rewrite Hrun. simpl. eexists. split; [reflexivity|]. simpl.
  repeat split; try assumption.
  intros k l Hk Hl. rewrite Hitem. cbn [item QuantumSystem.zeros zeros].
  destruct (Nat.eqb_spec k l) as [<-|Hne]; cbn [andb]; [|reflexivity].
  destruct (Nat.leb_spec 1 k), (Nat.ltb_spec k (1 + (dim self - 1)));
    cbn [andb]; try lia.
  - destruct k as [|[|[|k]]]; try lia; unfold SNO.Hnat_entry.
    + reflexivity.
    + cbn [Nat.eqb]. f_equal. simpl. lra.
    + cbn [Nat.eqb]. f_equal.
      rewrite minus_IZR, <- INR_IZR_INZ. reflexivity.
  - replace k with 0 by lia. reflexivity.
Qed.
Lemma Hnat_diagonal_witness :
  let self := SNO.new 3 5 (-1) None in
  exists H,
    SNO.Hnat self = Ok H /\
    Hamiltonian.dim H = 3 /\
    nrows (Hamiltonian.matrix H) = 3 /\
    ncols (Hamiltonian.matrix H) = 3 /\
    forall k l, k < 3 -> l < 3 ->
      item (Hamiltonian.matrix H) k l =
      if k =? l then
        if k =? 0 then zero
        else if k =? 1 then of_R (INR k * 5)
        else of_R (INR k * 5 + (-1) * (INR k - 1) * INR k / 2)
      else zero.
Proof.
  apply (Hnat_diagonal (SNO.new 3 5 (-1) None)). reflexivity.
Defined.
End Hnat.

(** ** SNO: ladder and number operators *)

Section Ladder.
Import Cplx Np SpecMat Algebra.

Lemma nth_sqrt_arange d a :
  a < d - 1 ->
  nth a (sqrt_arange 1 d) zero = of_R (Binary64.sqrt_nat (S a)).
Proof.
  intros Ha. unfold sqrt_arange, range.
  rewrite (nth_indep _ zero (of_R (Binary64.sqrt_nat 0)))
    by (rewrite length_map, length_seq; exact Ha).
  rewrite (map_nth (fun k => of_R (Binary64.sqrt_nat k))).
  rewrite seq_nth by exact Ha. reflexivity.
Qed.

Lemma length_sqrt_arange d : length (sqrt_arange 1 d) = d - 1.
Proof. unfold sqrt_arange, range. by rewrite length_map, length_seq. Qed.

(** The entries of the two ladder operators as the code builds them. *)
Lemma ladder_items (self : instance) :
  isinstance_SNO self = true -> 1 <= dim self ->
  exists L R,
    SNO.loweringOp self = Ok L /\ SNO.raisingOp self = Ok R /\
    nrows L = dim self /\ ncols L = dim self /\
    nrows R = dim self /\ ncols R = dim self /\
    forall a b, a < dim self -> b < dim self ->
      item L a b = (if b =? a + 1 then of_R (Binary64.sqrt_nat b) else zero) /\
      item R a b = (if a =? b + 1 then of_R (Binary64.sqrt_nat a) else zero).
Proof.
  intros Hc Hd. unfold SNO.loweringOp, SNO.raisingOp. rewrite Hc.
  eexists _, _. split; [reflexivity|]. split; [reflexivity|].
  unfold diag. change (Z.abs_nat (-1)) with 1. change (Z.abs_nat 1) with 1.
  change (0 <=? -1)%Z with false. change (0 <=? 1)%Z with true.
  cbn [nrows ncols item]. rewrite length_sqrt_arange.
  repeat (split; [lia|]).
  intros a b Ha Hb. split.
  - destruct (Nat.eqb_spec b (a + 1)) as [->|Hne]; [|reflexivity].
    rewrite nth_sqrt_arange by lia. by rewrite Nat.add_1_r.
  - destruct (Nat.eqb_spec a (b + 1)) as [->|Hne]; [|reflexivity].
    rewrite nth_sqrt_arange by lia. by rewrite Nat.add_1_r.
Qed.
(** C3, as the code has it: [loweringOp] carries [sqrt(k)], the root as
    [np.sqrt] rounds it, on the super-diagonal, at [(k-1, k)], and
    [raisingOp] carries it on the sub-diagonal, at [(k, k-1)], for
    [k = 1 .. d-1]; every other entry of both [d x d] matrices is zero. *)
Theorem ladder_operators_layout (self : instance) :
  isinstance_SNO self = true -> 1 <= dim self ->
  exists L R,
    SNO.loweringOp self = Ok L /\ SNO.raisingOp self = Ok R /\
    nrows L = dim self /\ ncols L = dim self /\
    nrows R = dim self /\ ncols R = dim self /\
    (forall k, 1 <= k < dim self ->
       item L (k - 1) k = of_R (Binary64.sqrt_nat k) /\
       item R k (k - 1) = of_R (Binary64.sqrt_nat k)) /\
    (forall a b, a < dim self -> b < dim self ->
       (b <> a + 1 -> item L a b = zero) /\
       (a <> b + 1 -> item R a b = zero)).
Proof.
  intros Hc Hd.
  destruct (ladder_items self Hc Hd)
    as (L & R & HL & HR & HrL & HcL & HrR & HcR & Hitem).
  exists L, R. repeat (split; [assumption|]). split.
  - intros k Hk. destruct (Hitem (k - 1) k) as [H1 _]; [lia..|].
    destruct (Hitem k (k - 1)) as [_ H2]; [lia..|].
    rewrite H1, H2. replace (k - 1 + 1) with k by lia.
    by rewrite Nat.eqb_refl.
  - intros a b Ha Hb. destruct (Hitem a b Ha Hb) as [H1 H2].
    rewrite H1, H2. split; intros Hne.
    + by destruct (Nat.eqb_spec b (a + 1)).
    + by destruct (Nat.eqb_spec a (b + 1)).
Qed.

Lemma ladder_operators_layout_witness :
  let self := SNO.new 3 0 0 None in
  exists L R,
    SNO.loweringOp self = Ok L /\ SNO.raisingOp self = Ok R /\
    nrows L = 3 /\ ncols L = 3 /\ nrows R = 3 /\ ncols R = 3 /\
    (forall k, 1 <= k < 3 ->
       item L (k - 1) k = of_R (Binary64.sqrt_nat k) /\
       item R k (k - 1) = of_R (Binary64.sqrt_nat k)) /\
    (forall a b, a < 3 -> b < 3 ->
       (b <> a + 1 -> item L a b = zero) /\
       (a <> b + 1 -> item R a b = zero)).
Proof.
  apply (ladder_operators_layout (SNO.new 3 0 0 None)).
  - reflexivity.
  - simpl. lia.
Defined.

(** C3 as stated fails on a two-level system: the claim puts [sqrt(1)] of
    [loweringOp] at [(1, 0)] and of [raisingOp] at [(0, 1)], where the code
    has zeros. *)
Lemma ladder_operators_not_as_claimed :
  exists L R,
    SNO.loweringOp (SNO.new 2 0 0 None) = Ok L /\
    SNO.raisingOp (SNO.new 2 0 0 None) = Ok R /\
    item L 1 0 <> of_R (Binary64.sqrt_nat 1) /\
    item R 0 1 <> of_R (Binary64.sqrt_nat 1).
Proof.
  eexists _, _. split; [reflexivity|]. split; [reflexivity|].
  cbn. rewrite sqrt_nat_1.
  split; intros H; apply (f_equal re) in H; simpl in H; lra.
Qed.

Lemma mul_of_R x y : mul (of_R x) (of_R y) = of_R (x * y).
Proof. apply C_eq; simpl; lra. Qed.

Lemma numberOp_items (self : instance) :
  isinstance_SNO self = true ->
  exists N, SNO.numberOp self = Ok N /\ same N (number_diag (dim self)).
Proof.
  intros Hc. unfold SNO.numberOp. rewrite Hc. eexists. split; [reflexivity|].
  unfold diag, arange, range. change (0 <=? 0)%Z with true.
  change (Z.abs_nat 0) with 0. unfold same. cbn [nrows ncols item number_diag].
  rewrite length_map, length_seq, Nat.sub_0_r, Nat.add_0_r.
  repeat split. intros a b Ha Hb. rewrite Nat.add_0_r, (Nat.eqb_sym b a).
  destruct (Nat.eqb_spec a b); [|reflexivity].
  rewrite (nth_indep _ zero (of_nat 0)) by (by rewrite length_map, length_seq).
  rewrite (map_nth of_nat), seq_nth by exact Ha. reflexivity.
Qed.




End Ladder.

(** ** Broadcasting arithmetic *)

Section Broadcast.
Import Cplx Np SpecMat.

Lemma bidx_lt n a : a < n -> bidx n a = a.
Proof. unfold bidx. destruct (Nat.eqb_spec n 1); lia. Qed.

Lemma broadcast_dim_refl n : broadcast_dim n n = Ok n.
Proof. unfold broadcast_dim. by rewrite Nat.eqb_refl. Qed.



(** On equal shapes a broadcasting operation is the entrywise one. *)
Lemma broadcast2_same_shape op A B :
  nrows A = nrows B -> ncols A = ncols B ->
  exists S, broadcast2 op A B = Ok S /\
    nrows S = nrows A /\ ncols S = ncols A /\
    forall a b, a < nrows A -> b < ncols A ->
      item S a b = op (item A a b) (item B a b).
Proof.
  intros Hr Hc. unfold broadcast2. rewrite <- Hr, <- Hc.
  rewrite !broadcast_dim_refl. cbn [bind]. eexists. split; [reflexivity|].
  cbn [nrows ncols item]. repeat split. intros a b Ha Hb.
  by rewrite !bidx_lt.
Qed.
End Broadcast.

(** ** Dissipator.superOpColStack *)

Section Lindblad.
Import Cplx Np SpecMat.

(** C7: for a [d x d] Lindblad matrix [L], [superOpColStack()] returns
    [(conj(L) kron L) - 0.5*(I kron (L^dagger L)) - 0.5*((L^T conj(L)) kron I)]
    with [I] the [d x d] identity; no step of the computation raises. *)
Theorem superOpColStack_lindblad (L : ndarray) (d : nat) :
  nrows L = d -> ncols L = d ->
  exists S,
    Dissipator.superOpColStack (Dissipator.new L) = Ok S /\
    nrows S = d * d /\ ncols S = d * d /\
    same S (lindblad_term d L) /\
    forall a b, a < d * d -> b < d * d ->
      item S a b =
      sub (sub (mul (Cplx.conj (item L (a / d) (b / d)))
                    (item L (a mod d) (b mod d)))
               (mul (of_R (1 / 2))
                  (mul (if a / d =? b / d then one else zero)
                       (sum d (fun m =>
                          mul (Cplx.conj (item L m (a mod d)))
                              (item L m (b mod d)))))))
          (mul (of_R (1 / 2))
             (mul (sum d (fun m =>
                     mul (item L m (a / d)) (Cplx.conj (item L m (b / d)))))
                  (if a mod d =? b mod d then one else zero))).
Proof.
  intros Hr Hc.
  unfold Dissipator.superOpColStack, Dissipator.new, Dissipator.half.
  cbn [Dissipator.matrix Dissipator.dim].
  unfold dot. cbn [nrows ncols transpose conj]. rewrite Hr, Hc, Nat.eqb_refl.
  cbn [bind].
  match goal with
  | |- context [bind (subtract ?A ?B) _] =>
      destruct (broadcast2_same_shape Cplx.sub A B)
        as (S1 & HS1 & Hr1 & Hc1 & Hi1);
      [cbn [nrows ncols kron scale conj eye]; lia ..|]
  end.
  unfold subtract. rewrite HS1. cbn [bind].
  match goal with
  | |- context [broadcast2 Cplx.sub S1 ?B] =>
      destruct (broadcast2_same_shape Cplx.sub S1 B)
        as (S2 & HS2 & Hr2 & Hc2 & Hi2);
      [rewrite ?Hr1, ?Hc1; cbn [nrows ncols kron scale conj eye]; lia ..|]
  end.
  rewrite HS2. cbn [nrows ncols kron scale conj eye] in Hr1, Hc1.
  rewrite Hr in Hr1. rewrite Hc in Hc1.
  exists S2. split; [reflexivity|].
  assert (Hentries : forall a b, a < d * d -> b < d * d ->
            item S2 a b = item (lindblad_term d L) a b).
  { intros a b Ha Hb.
    rewrite Hi2 by (rewrite ?Hr1, ?Hc1; assumption).
    rewrite Hi1 by (cbn [nrows ncols kron conj]; rewrite ?Hr, ?Hc; assumption).
    unfold lindblad_term, mat_sub, mat_mul, dagger.
    cbn [item nrows ncols kron scale conj eye transpose].
    rewrite ?Hr, ?Hc. reflexivity. }
  split; [lia|]. split; [lia|]. split.
  - unfold same. rewrite Hr2, Hc2, Hr1, Hc1.
    unfold lindblad_term, mat_sub. cbn [nrows ncols kron conj].
    rewrite Hr, Hc. repeat split. exact Hentries.
  - intros a b Ha Hb. rewrite Hentries by assumption.
    unfold lindblad_term, mat_sub, mat_mul, dagger.
    cbn [item nrows ncols kron scale conj eye transpose].
    rewrite ?Hr, ?Hc. reflexivity.
Qed.

Lemma superOpColStack_lindblad_witness :
  exists S,
    Dissipator.superOpColStack (Dissipator.new (eye 2)) = Ok S /\
    nrows S = 2 * 2 /\ ncols S = 2 * 2 /\
    same S (lindblad_term 2 (eye 2)) /\
    forall a b, a < 2 * 2 -> b < 2 * 2 ->
      item S a b =
      sub (sub (mul (Cplx.conj (item (eye 2) (a / 2) (b / 2)))
                    (item (eye 2) (a mod 2) (b mod 2)))
               (mul (of_R (1 / 2))
                  (mul (if a / 2 =? b / 2 then one else zero)
                       (sum 2 (fun m =>
                          mul (Cplx.conj (item (eye 2) m (a mod 2)))
                              (item (eye 2) m (b mod 2)))))))
          (mul (of_R (1 / 2))
             (mul (sum 2 (fun m =>
                     mul (item (eye 2) m (a / 2))
                         (Cplx.conj (item (eye 2) m (b / 2)))))
                  (if a mod 2 =? b mod 2 then one else zero))).
Proof.
  apply (superOpColStack_lindblad (eye 2) 2); reflexivity.
Defined.
End Lindblad.

(** ** Hamiltonian.__add__ and Hamiltonian.__iadd__ *)

Section HamiltonianAdd.
Import Cplx Np SpecMat.
Import Hamiltonian.





End HamiltonianAdd.

(** ** Interaction.createMat *)

Section CreateMat.
Import Cplx Np SpecMat.
Import Interaction.



End CreateMat.

(** ** expand_hilbert_space on concrete inputs *)

Section ExpandExamples.
Import Cplx Np Expand.

(** C1 fails on subsystems of different dimensions.  With
    [dimensions = [2, 3]], an operator [A] on subsystem 1 and subsystem 0
    passive, the swap the code builds is [calc_perm_mat(dimensions[1],
    dimensions[0])], the dimensions at the *positions* being swapped and not
    of the subsystems standing there; the result has 0 at [(0, 1)] where the
    embedding [P (A kron I) P^T] has [A[0, 1]]. *)
Theorem expand_heterogeneous_dimensions (f : nat -> nat -> C) :
  exists M E,
    expand_hilbert_space (mkarr 3 3 f) [1%Z] [0%Z] [2; 3] = Some (Ok M) /\
    embedding_spec (mkarr 3 3 f) [1] [0] [2; 3] = Ok E /\
    nrows M = 6 /\ ncols M = 6 /\ nrows E = 6 /\ ncols E = 6 /\
    item M 0 1 = zero /\
    item E 0 1 = f 0 1 /\
    (f 0 1 <> zero -> item M 0 1 <> item E 0 1).
Proof.
  eexists _, _. split; [reflexivity|]. split; [reflexivity|].
  do 4 (split; [reflexivity|]).
  match goal with
  | |- ?x = zero /\ ?y = _ /\ _ =>
      assert (Hx : x = zero) by (cbn; apply C_eq; simpl; lra);
      assert (Hy : y = f 0 1) by (cbn; apply C_eq; simpl; lra)
  end.
  split; [exact Hx|]. split; [exact Hy|].
  intros Hf Heq. apply Hf.
  exact (eq_trans (eq_sym Hy) (eq_trans (eq_sym Heq) Hx)).
Qed.

(** The embedding the specification describes is, on that input, the
    operator acting on the inner factor: [I_2 kron A]. *)
Lemma embedding_spec_inner_factor (f : nat -> nat -> C) :
  exists E,
    embedding_spec (mkarr 3 3 f) [1] [0] [2; 3] = Ok E /\
    same E (kron (eye 2) (mkarr 3 3 f)).
Proof.
  eexists. split; [reflexivity|]. unfold same. cbn [nrows ncols].
  split; [reflexivity|]. split; [reflexivity|].
  intros a b Ha Hb.
  do 6 (destruct a as [|a]; [do 6 (destruct b as [|b];
        [cbn; apply C_eq; simpl; lra|]); cbn in Hb; lia|]).
  cbn in Ha. lia.
Qed.

(** On equal dimensions the same call is right: with [dimensions = [2, 2]]
    the code returns [I_2 kron A]. *)
Lemma expand_equal_dimensions_example (f : nat -> nat -> C) :
  exists M,
    expand_hilbert_space (mkarr 2 2 f) [1%Z] [0%Z] [2; 2] = Some (Ok M) /\
    same M (kron (eye 2) (mkarr 2 2 f)).
Proof.
  eexists. split; [reflexivity|]. unfold same. cbn [nrows ncols].
  split; [reflexivity|]. split; [reflexivity|].
  intros a b Ha Hb.
  do 4 (destruct a as [|a]; [do 4 (destruct b as [|b];
        [cbn; apply C_eq; simpl; lra|]); cbn in Hb; lia|]).
  cbn in Ha. lia.
Qed.

End ExpandExamples.

(** ** The reordering loop *)

Section ExpandLoop.
Import Cplx Np Expand.

Lemma getitem_of_nat {A : Type} (v : list A) (i : nat) (x : A) :
  v !! i = Some x -> getitem v (Z.of_nat i) = Ok x.
Proof.
  intros H. unfold getitem.
  rewrite norm_index_of_nat by (eapply lookup_lt_Some; exact H).
  cbn [bind]. by rewrite H.
Qed.

Lemma setitem1_of_nat {A : Type} (v : list A) (i : nat) (x : A) :
  i < length v -> setitem1 v (Z.of_nat i) x = Ok (<[i := x]> v).
Proof. intros H. unfold setitem1. by rewrite norm_index_of_nat. Qed.

(** Exchanging two neighbours of the tracked ordering. *)
Lemma swap_items_neighbours (v : list Z) (p : nat) (x y : Z) :
  1 <= p -> v !! (p - 1) = Some x -> v !! p = Some y ->
  swap_items v (Z.of_nat p - 1) (Z.of_nat p) =
  Ok (<[p := x]> (<[p - 1 := y]> v)).
Proof.
  intros Hp Hx Hy. unfold swap_items.
  replace (Z.of_nat p - 1)%Z with (Z.of_nat (p - 1)) by lia.
  rewrite (getitem_of_nat _ _ _ Hy), (getitem_of_nat _ _ _ Hx). cbn [bind].
  pose proof (lookup_lt_Some _ _ _ Hx). pose proof (lookup_lt_Some _ _ _ Hy).
  rewrite setitem1_of_nat by assumption. cbn [bind].
  rewrite setitem1_of_nat by (by rewrite length_insert). reflexivity.
Qed.

Lemma first_index_Some c l p :
  first_index c l = Some p ->
  l !! p = Some c /\ forall q, q < p -> l !! q <> Some c.
Proof.
  revert p. induction l as [|x l IH]; intros p; simpl; [discriminate|].
  destruct (Z.eqb_spec x c) as [->|Hne].
  - intros [= <-]. split; [reflexivity|]. intros q Hq. lia.
  - destruct (first_index c l) as [p'|]; simpl; [|discriminate].
    intros [= <-]. destruct (IH p' eq_refl) as [H1 H2].
    split; [exact H1|]. intros [|q] Hq; simpl.
    + congruence.
    + apply H2. lia.
Qed.

Lemma first_index_None c l : first_index c l = None -> c ∉ l.
Proof.
  induction l as [|x l IH]; simpl; intros H.
  - apply not_elem_of_nil.
  - destruct (Z.eqb_spec x c) as [->|Hne]; [discriminate|].
    destruct (first_index c l); [discriminate|].
    apply not_elem_of_cons. split; [congruence|]. by apply IH.
Qed.


Lemma first_index_intro c l p :
  l !! p = Some c -> (forall q, q < p -> l !! q <> Some c) ->
  first_index c l = Some p.
Proof.
  intros H1 H2. destruct (first_index c l) as [p'|] eqn:E.
  - destruct (first_index_Some _ _ _ E) as [H3 H4].
    destruct (Nat.lt_trichotomy p p') as [Hlt|[->|Hgt]]; [|reflexivity|].
    + exfalso. by apply (H4 p).
    + exfalso. by apply (H2 p').
  - apply first_index_None in E. exfalso. apply E.
    eapply list_elem_of_lookup_2. exact H1.
Qed.

(** A pass of the loop body that does not raise found [ct] strictly to the
    right of position [ct] and moved it one place to the left. *)
Lemma swap_step_ok fl dims ct cur P cur' P' x :
  settled ct cur -> cur !! ct = Some x -> (Z.of_nat ct < x)%Z ->
  swap_step fl dims ct (cur, P) = Ok (cur', P') ->
  exists p y,
    ct < p /\ first_index (Z.of_nat ct) cur = Some p /\
    cur !! (p - 1) = Some y /\
    cur' = <[p := y]> (<[p - 1 := Z.of_nat ct]> cur).
Proof.
  intros Hset Hx Hlt. unfold swap_step, nonzero_first.
  destruct (first_index (Z.of_nat ct) cur) as [p|] eqn:E; [|discriminate].
  cbn [bind].
  destruct (first_index_Some _ _ _ E) as [Hp Hq].
  assert (ct < p) as Hcp.
  { destruct (Nat.lt_trichotomy p ct) as [H|[->|H]]; [| |exact H].
    - specialize (Hset p _ H Hp). lia.
    - rewrite Hx in Hp. inversion Hp. lia. }
  assert (exists y, cur !! (p - 1) = Some y) as [y Hy].
  { apply lookup_lt_is_Some. apply lookup_lt_Some in Hp. lia. }
  rewrite (swap_items_neighbours cur p y (Z.of_nat ct)) by (try lia; assumption).
  intros H. exists p, y.
  repeat (match type of H with
          | bind ?m _ = Ok _ => destruct m; cbn [bind] in H; [|discriminate]
          end).
  inversion H. auto.
Qed.

Lemma swap_preserves cur ct p y :
  ct < p -> settled ct cur ->
  first_index (Z.of_nat ct) cur = Some p -> cur !! (p - 1) = Some y ->
  let cur' := <[p := y]> (<[p - 1 := Z.of_nat ct]> cur) in
  settled ct cur' /\ length cur' = length cur /\
  first_index (Z.of_nat ct) cur' = Some (p - 1).
Proof.
  intros Hcp Hset E Hy cur'.
  destruct (first_index_Some _ _ _ E) as [Hp Hq].
  pose proof (lookup_lt_Some _ _ _ Hp) as Hlen.
  split; [|split].
  - intros q v Hqc. unfold cur'.
    rewrite !list_lookup_insert_ne by lia. by apply Hset.
  - unfold cur'. by rewrite !length_insert.
  - apply first_index_intro.
    + unfold cur'. rewrite list_lookup_insert_ne by lia.
      apply list_lookup_insert_eq. lia.
    + intros q Hqp. unfold cur'. rewrite !list_lookup_insert_ne by lia.
      apply Hq. lia.
Qed.

(** The [while] loop at position [ct] ends before its passes run out. *)
Lemma while_loop_total fuel fl dims ct cur P :
  settled ct cur -> ct < length cur -> 1 <= fuel ->
  (forall p, first_index (Z.of_nat ct) cur = Some p -> p < ct + fuel) ->
  exists r,
    while_loop fuel fl dims ct (cur, P) = Some r /\
    forall cur' P', r = Ok (cur', P') ->
      settled (S ct) cur' /\ length cur' = length cur.
Proof.
  revert cur P. induction fuel as [|fuel IH]; intros cur P Hset Hct Hf Hp;
    [lia|].
  destruct (lookup_lt_is_Some_2 cur ct Hct) as [x Hx].
  cbn [while_loop fst]. rewrite (getitem_of_nat _ _ _ Hx).
  destruct (Z.ltb_spec (Z.of_nat ct) x) as [Hlt|Hge].
  - destruct (swap_step fl dims ct (cur, P)) as [[cur' P']|e] eqn:Hstep.
    + destruct (swap_step_ok _ _ _ _ _ _ _ _ Hset Hx Hlt Hstep)
        as (p & y & Hcp & E & Hy & ->).
      destruct (swap_preserves cur ct p y Hcp Hset E Hy)
        as (Hset' & Hlen' & E').
      specialize (Hp p E).
      destruct (IH _ P' Hset') as (r & Hr & Hpost).
      * by rewrite Hlen'.
      * lia.
      * intros q Hq. rewrite E' in Hq. inversion Hq. lia.
      * exists r. split; [exact Hr|]. intros c2 P2 HOk.
        destruct (Hpost c2 P2 HOk) as [H1 H2]. split; [exact H1|].
        by rewrite H2.
    + eexists. split; [reflexivity|]. discriminate.
  - eexists. split; [reflexivity|]. intros cur' P' [= <- <-].
    split; [|reflexivity]. intros q v Hq Hv.
    destruct (Nat.eq_dec q ct) as [->|Hne].
    + rewrite Hx in Hv. inversion Hv. lia.
    + apply (Hset q v); [lia|exact Hv].
Qed.

Lemma for_loop_total fl dims k ct cur P :
  settled ct cur -> ct + k = length cur ->
  exists r,
    for_loop (S (length cur)) fl dims (seq ct k) (cur, P) = Some r.
Proof.
  revert ct cur P. induction k as [|k IH]; intros ct cur P Hset Hlen.
  - eexists. reflexivity.
  - cbn [seq for_loop].
    destruct (while_loop_total (S (length cur)) fl dims ct cur P)
      as (r & Hr & Hpost); [assumption|lia|lia| |].
    { intros p Hp. apply first_index_Some in Hp as [Hp _].
      apply lookup_lt_Some in Hp. lia. }
    rewrite Hr. destruct r as [[cur' P']|e].
    + destruct (Hpost cur' P' eq_refl) as [Hset' Hlen'].
      rewrite <- Hlen'. apply IH; [exact Hset'|lia].
    + eexists. reflexivity.
Qed.

(** The bound on the [while] loops is never reached: on every input,
    well-formed or not, [expand_hilbert_space] returns or raises. *)
Lemma expand_hilbert_space_terminates operator acting passive dims :
  exists r, expand_hilbert_space operator acting passive dims = Some r.
Proof.
  unfold expand_hilbert_space.
  match goal with
  | |- context [match ?m with Ok _ => _ | Raise _ => _ end] =>
      destruct m as [dimEye|e]
  end; [|eexists; reflexivity].
  cbv zeta. unfold range. rewrite Nat.sub_0_r.
  match goal with
  | |- context [for_loop _ ?fl _ _ (?c, ?P)] =>
      destruct (for_loop_total fl dims (length c) 0 c P) as (r & Hr);
      [intros p v Hp; lia|reflexivity|]
  end.
  rewrite Hr. destruct r as [[cur' P']|e]; eexists; reflexivity.
Qed.
End ExpandLoop.

(** ** Malformed partitions *)

Section Malformed.
Import Cplx Np Expand.




Lemma for_loop_app fuel fl dims l1 l2 st :
  for_loop fuel fl dims (l1 ++ l2) st =
  match for_loop fuel fl dims l1 st with
  | Some (Ok st') => for_loop fuel fl dims l2 st'
  | other => other
  end.
Proof.
  revert st. induction l1 as [|ct l1 IH]; intros st; cbn [for_loop app].
  - reflexivity.
  - destruct (while_loop fuel fl dims ct st) as [[st'|e]|]; auto.
Qed.

(** Positions that already hold their own index are passed over. *)
Lemma for_loop_identity_prefix fuel fl dims c cur P :
  (forall p, p < c -> cur !! p = Some (Z.of_nat p)) ->
  for_loop (S fuel) fl dims (seq 0 c) (cur, P) = Some (Ok (cur, P)).
Proof.
  induction c as [|c IH]; intros Hid; [reflexivity|].
  rewrite seq_S, for_loop_app, IH by (intros; apply Hid; lia).
  cbn [for_loop while_loop fst Nat.add].
  rewrite (getitem_of_nat _ _ _ (Hid c (Nat.lt_succ_diag_r c))).
  by rewrite Z.ltb_irrefl.
Qed.


End Malformed.

(** ** Permutation matrices *)

Section PermMatrices.
Import Cplx Np SpecMat Expand Perm.


Lemma eye_is_perm n : is_perm_of n (fun a => a) (eye n).
Proof.
  repeat split; auto. intros a b Ha Hb. cbn. by rewrite Nat.eqb_sym.
Qed.

(** Multiplying by a permutation matrix on the left permutes the rows. *)
Lemma dot_perm_l n g P M :
  is_perm_of n g P -> nrows M = n ->
  exists Q, dot P M = Ok Q /\ nrows Q = n /\ ncols Q = ncols M /\
    forall a b, a < n -> item Q a b = item M (g a) b.
Proof.
  intros (Hr & Hc & Hg & Hi) HM. unfold dot. rewrite Hc, HM, Nat.eqb_refl.
  eexists. split; [reflexivity|]. cbn [nrows ncols item].
  split; [exact Hr|]. split; [reflexivity|]. intros a b Ha.
  rewrite (sum_single _ _ (g a)).
  - rewrite Hi by auto. rewrite Nat.eqb_refl. apply mul_one_l.
  - auto.
  - intros m Hm Hne. rewrite Hi by auto.
    destruct (Nat.eqb_spec m (g a)); [done|apply mul_zero_l].
Qed.

(** Multiplying by its transpose on the right permutes the columns. *)
Lemma dot_perm_transpose_r n g P M :
  is_perm_of n g P -> ncols M = n ->
  exists Q, dot M (transpose P) = Ok Q /\ nrows Q = nrows M /\ ncols Q = n /\
    forall a b, b < n -> item Q a b = item M a (g b).
Proof.
  intros (Hr & Hc & Hg & Hi) HM. unfold dot. cbn [nrows ncols transpose].
  rewrite HM, Hc, Nat.eqb_refl.
  eexists. split; [reflexivity|]. cbn [nrows ncols item].
  split; [reflexivity|]. split; [exact Hr|]. intros a b Hb.
  rewrite (sum_single _ _ (g b)); unfold transpose; cbn [item].
  - rewrite Hi by auto. rewrite Nat.eqb_refl. apply mul_one_r.
  - auto.
  - intros m Hm Hne. rewrite Hi by auto.
    destruct (Nat.eqb_spec m (g b)); [done|apply mul_zero_r].
Qed.

(** The product of two permutation matrices is one. *)
Lemma dot_perm_perm n g h P Q :
  is_perm_of n g P -> is_perm_of n h Q ->
  exists R, dot P Q = Ok R /\ is_perm_of n (fun a => h (g a)) R.
Proof.
  intros HP HQ. pose proof HQ as (Hr & Hc & Hh & Hi).
  destruct (dot_perm_l n g P Q HP Hr) as (R & HR & HrR & HcR & HiR).
  exists R. split; [exact HR|]. destruct HP as (_ & _ & Hg & _).
  split; [exact HrR|]. split; [by rewrite HcR|]. split; [auto|].
  intros a b Ha Hb. rewrite HiR by exact Ha. apply Hi; auto.
Qed.

(** Conjugation by a permutation matrix: [P M P^T] reads [M] at permuted
    indices. *)
Lemma conjugate_by_perm n g P M :
  is_perm_of n g P -> nrows M = n -> ncols M = n ->
  exists Q, (let* a := dot P M in dot a (transpose P)) = Ok Q /\
    nrows Q = n /\ ncols Q = n /\
    forall a b, a < n -> b < n -> item Q a b = item M (g a) (g b).
Proof.
  intros HP Hr Hc.
  destruct (dot_perm_l n g P M HP Hr) as (Q1 & H1 & Hr1 & Hc1 & Hi1).
  rewrite H1. cbn [bind].
  destruct (dot_perm_transpose_r n g P Q1 HP) as (Q & H2 & Hr2 & Hc2 & Hi2).
  { by rewrite Hc1. }
  exists Q. split; [exact H2|]. split; [by rewrite Hr2|]. split; [exact Hc2|].
  intros a b Ha Hb. rewrite Hi2 by exact Hb. by apply Hi1.
Qed.

(** A loop of assignments of one value [v]. *)
Lemma foldM_setitem {A : Type} (xs : list A) (row col : A -> nat) v P :
  (forall x, x ∈ xs -> row x < nrows P /\ col x < ncols P) ->
  exists P',
    foldM (fun x P => setitem P (Z.of_nat (row x)) (Z.of_nat (col x)) v) xs P
      = Ok P' /\
    nrows P' = nrows P /\ ncols P' = ncols P /\
    forall a b, item P' a b =
      if existsb (fun x => (a =? row x) && (b =? col x)) xs then v
      else item P a b.
Proof.
  revert P. induction xs as [|x xs IH]; intros P Hin.
  - exists P. repeat split; reflexivity.
  - cbn [foldM]. destruct (Hin x) as [Hr Hc]; [left|].
    rewrite setitem_of_nat by assumption. cbn [bind].
    destruct (IH (mkarr (nrows P) (ncols P)
                   (fun a b => if (a =? row x) && (b =? col x) then v
                               else item P a b)))
      as (P' & Hrun & Hr' & Hc' & Hi').
    { intros y Hy. cbn [nrows ncols]. apply Hin. by right. }
    exists P'. split; [exact Hrun|]. split; [exact Hr'|]. split; [exact Hc'|].
    intros a b. rewrite Hi'. cbn [item existsb].
    destruct (existsb _ xs); [by rewrite Bool.orb_true_r|].
    by rewrite Bool.orb_false_r.
Qed.

Lemma foldM_nested_setitem {A B : Type} (xs : list A) (ys : list B)
    (row col : A -> B -> nat) v P :
  (forall x y, x ∈ xs -> y ∈ ys -> row x y < nrows P /\ col x y < ncols P) ->
  exists P',
    foldM (fun x P =>
             foldM (fun y P =>
                      setitem P (Z.of_nat (row x y)) (Z.of_nat (col x y)) v)
                   ys P) xs P = Ok P' /\
    nrows P' = nrows P /\ ncols P' = ncols P /\
    forall a b, item P' a b =
      if existsb (fun x => existsb (fun y => (a =? row x y) && (b =? col x y)) ys)
                 xs
      then v else item P a b.
Proof.
  revert P. induction xs as [|x xs IH]; intros P Hin.
  - exists P. repeat split; reflexivity.
  - cbn [foldM].
    destruct (foldM_setitem ys (row x) (col x) v P)
      as (P1 & Hrun1 & Hr1 & Hc1 & Hi1).
    { intros y Hy. apply Hin; [left|exact Hy]. }
    rewrite Hrun1. cbn [bind].
    destruct (IH P1) as (P' & Hrun & Hr' & Hc' & Hi').
    { intros x' y Hx' Hy. rewrite Hr1, Hc1. apply Hin; [by right|exact Hy]. }
    exists P'. split; [exact Hrun|]. split; [by rewrite Hr'|].
    split; [by rewrite Hc'|].
    intros a b. rewrite Hi', Hi1. cbn [existsb].
    destruct (existsb _ xs); [by rewrite Bool.orb_true_r|].
    by rewrite Bool.orb_false_r.
Qed.


Lemma swap_index_lt d1 d2 a : a < d1 * d2 -> swap_index d1 d2 a < d1 * d2.
Proof.
  intros Ha. unfold swap_index.
  assert (d2 <> 0) by (intros ->; lia).
  pose proof (Nat.mod_upper_bound a d2 ltac:(assumption)).
  assert (a / d2 < d1) by (apply Nat.Div0.div_lt_upper_bound; lia).
  nia.
Qed.

Lemma calc_perm_mat_hits d1 d2 a b :
  a < d1 * d2 ->
  existsb (fun ct1 =>
     existsb (fun ct2 => (a =? ct1 * d2 + ct2) && (b =? ct2 * d1 + ct1))
             (range 0 d2)) (range 0 d1)
  = (b =? swap_index d1 d2 a).
Proof.
  intros Ha. unfold range, swap_index. rewrite !Nat.sub_0_r.
  assert (d2 <> 0) as Hd2 by (intros ->; lia).
  pose proof (Nat.mod_upper_bound a d2 Hd2) as Hmod.
  assert (a / d2 < d1) as Hdiv by (apply Nat.Div0.div_lt_upper_bound; lia).
  pose proof (Nat.div_mod_eq a d2) as Hdm.
  apply Bool.eq_iff_eq_true. rewrite existsb_exists, Nat.eqb_eq. split.
  - intros (ct1 & H1 & Hex). apply existsb_exists in Hex as (ct2 & H2 & Hhit).
    apply in_seq in H1, H2. apply andb_prop in Hhit as [Ea Eb].
    apply Nat.eqb_eq in Ea, Eb.
    assert (a mod d2 = ct2) as ->
      by (symmetry; apply (Nat.mod_unique a d2 ct1 ct2); lia).
    assert (a / d2 = ct1) as ->
      by (symmetry; apply (Nat.div_unique a d2 ct1 ct2); lia).
    exact Eb.
  - intros ->. exists (a / d2). split; [apply in_seq; lia|].
    apply existsb_exists. exists (a mod d2). split; [apply in_seq; lia|].
    apply andb_true_intro. split; apply Nat.eqb_eq; lia.
Qed.

(** [calc_perm_mat(dim1, dim2)] never raises and is the permutation matrix
    with its 1 of row [ct1*dim2 + ct2] in column [ct2*dim1 + ct1]. *)
Lemma calc_perm_mat_is_perm d1 d2 :
  exists P, calc_perm_mat d1 d2 = Ok P /\
    is_perm_of (d1 * d2) (swap_index d1 d2) P.
Proof.
  unfold calc_perm_mat.
  destruct (foldM_nested_setitem (range 0 d1) (range 0 d2)
              (fun ct1 ct2 => ct1 * d2 + ct2) (fun ct1 ct2 => ct2 * d1 + ct1)
              one (zeros (d1 * d2) (d1 * d2)))
    as (P & Hrun & Hr & Hc & Hi).
  { intros ct1 ct2 H1 H2. cbn [nrows ncols zeros]. unfold range in *.
    apply list_elem_of_In, in_seq in H1. apply list_elem_of_In, in_seq in H2. nia. }
  exists P. split; [exact Hrun|]. cbn [nrows ncols zeros] in Hr, Hc.
  split; [exact Hr|]. split; [exact Hc|]. split; [apply swap_index_lt|].
  intros a b Ha Hb. rewrite Hi, calc_perm_mat_hits by exact Ha. reflexivity.
Qed.
End PermMatrices.

(** ** Mixed-radix digits and Kronecker products of permutations *)

Section Digits.
Import Cplx Np SpecMat Expand Perm.

Lemma swap_index_inv d1 d2 a :
  a < d1 * d2 -> swap_index d2 d1 (swap_index d1 d2 a) = a.
Proof.
  intros Ha. unfold swap_index.
  assert (d2 <> 0) as Hd2 by (intros ->; lia).
  pose proof (Nat.mod_upper_bound a d2 Hd2) as Hmod.
  assert (a / d2 < d1) as Hdiv by (apply Nat.Div0.div_lt_upper_bound; lia).
  pose proof (Nat.div_mod_eq a d2) as Hdm.
  set (s := a mod d2 * d1 + a / d2).
  assert (s mod d1 = a / d2) as ->
    by (symmetry; apply (Nat.mod_unique s d1 (a mod d2) (a / d2)); subst s; lia).
  assert (s / d1 = a mod d2) as ->
    by (symmetry; apply (Nat.div_unique s d1 (a mod d2) (a / d2)); subst s; lia).
  lia.
Qed.

(** Permutation orthogonality: [P . P^T = I] for every matrix
    [calc_perm_mat] constructs. *)
Lemma calc_perm_mat_orthogonal d1 d2 :
  exists P Q, calc_perm_mat d1 d2 = Ok P /\ dot P (transpose P) = Ok Q /\
    same Q (eye (d1 * d2)).
Proof.
  destruct (calc_perm_mat_is_perm d1 d2) as (P & HP & Hperm).
  pose proof Hperm as (Hr & Hc & Hg & Hi).
  destruct (dot_perm_transpose_r _ _ P P Hperm Hc) as (Q & HQ & HrQ & HcQ & HiQ).
  exists P, Q. split; [exact HP|]. split; [exact HQ|].
  unfold same. cbn [nrows ncols eye item]. rewrite HrQ, Hr.
  split; [reflexivity|]. split; [exact HcQ|].
  intros a b Ha Hb. rewrite HcQ in Hb. rewrite HiQ, Hi by auto.
  destruct (Nat.eqb_spec a b) as [->|Hne]; [by rewrite Nat.eqb_refl|].
  destruct (Nat.eqb_spec (swap_index d1 d2 b) (swap_index d1 d2 a)) as [E|];
    [|reflexivity].
  exfalso. apply Hne.
  rewrite <- (swap_index_inv d1 d2 a Ha), <- (swap_index_inv d1 d2 b Hb).
  by rewrite E.
Qed.




Lemma digits_length dims i : length (digits dims i) = length dims.
Proof.
  revert i. induction dims as [|d ds IH]; intros i; cbn [digits length];
    [reflexivity|]. by rewrite IH.
Qed.







Lemma decompose3 pre m post a :
  a < pre * m * post ->
  a / post / m < pre /\ a / post mod m < m /\ a mod post < post /\
  a = (a / post / m * m + a / post mod m) * post + a mod post.
Proof.
  intros Ha.
  assert (post <> 0) as Hp by (intros ->; lia).
  assert (m <> 0) as Hm by (intros ->; lia).
  assert (a / post < pre * m) by (apply Nat.Div0.div_lt_upper_bound; lia).
  split; [apply Nat.Div0.div_lt_upper_bound; lia|].
  split; [by apply Nat.mod_upper_bound|].
  split; [by apply Nat.mod_upper_bound|].
  pose proof (Nat.div_mod_eq a post). pose proof (Nat.div_mod_eq (a / post) m).
  lia.
Qed.

Lemma compose3_unique m post q1 r1 s1 q2 r2 s2 :
  r1 < m -> s1 < post -> r2 < m -> s2 < post ->
  (q1 * m + r1) * post + s1 = (q2 * m + r2) * post + s2 ->
  q1 = q2 /\ r1 = r2 /\ s1 = s2.
Proof.
  intros Hr1 Hs1 Hr2 Hs2 E.
  set (X := (q1 * m + r1) * post + s1) in *.
  assert (s1 = X mod post) as Hs
    by (apply (Nat.mod_unique X post (q1 * m + r1) s1); subst X; lia).
  assert (s2 = X mod post) as Hs'
    by (apply (Nat.mod_unique X post (q2 * m + r2) s2); lia).
  assert (q1 * m + r1 = X / post) as Hq
    by (apply (Nat.div_unique X post (q1 * m + r1) s1); subst X; lia).
  assert (q2 * m + r2 = X / post) as Hq'
    by (apply (Nat.div_unique X post (q2 * m + r2) s2); lia).
  set (Y := X / post) in *.
  assert (r1 = Y mod m) by (apply (Nat.mod_unique Y m q1 r1); lia).
  assert (r2 = Y mod m) by (apply (Nat.mod_unique Y m q2 r2); lia).
  assert (q1 = Y / m) by (apply (Nat.div_unique Y m q1 r1); lia).
  assert (q2 = Y / m) by (apply (Nat.div_unique Y m q2 r2); lia).
  repeat split; congruence.
Qed.

Lemma kron_eye_perm_eye pre m post h P :
  is_perm_of m h P ->
  is_perm_of (pre * m * post) (lift_index m post h)
             (kron (kron (eye pre) P) (eye post)).
Proof.
  intros (Hr & Hc & Hh & Hi). unfold is_perm_of.
  cbn [nrows ncols kron eye]. rewrite Hr, Hc.
  split; [reflexivity|]. split; [reflexivity|]. split.
  - intros a Ha. destruct (decompose3 pre m post a Ha) as (H1 & H2 & H3 & _).
    unfold lift_index. specialize (Hh _ H2).
    generalize dependent (h (a / post mod m)). intros r Hr'.
    generalize dependent (a / post / m). intros q Hq.
    generalize dependent (a mod post). intros s Hs.
    assert (q * m + r + 1 <= pre * m) as Hle by nia.
    apply (Nat.mul_le_mono_r _ _ post) in Hle. lia.
  - intros a b Ha Hb. cbn [item kron eye nrows ncols]. rewrite Hr, Hc.
    destruct (decompose3 pre m post a Ha) as (Ha1 & Ha2 & Ha3 & Ea).
    destruct (decompose3 pre m post b Hb) as (Hb1 & Hb2 & Hb3 & Eb).
    rewrite Hi by assumption. unfold lift_index.
    pose proof (Hh _ Ha2) as Hha.
    destruct (Nat.eqb_spec b ((a / post / m * m + h (a / post mod m)) * post
                              + a mod post)) as [E|E].
    + rewrite Eb in E at 1.
      apply compose3_unique in E as (E1 & E2 & E3); try assumption.
      rewrite E1, E2, E3, !Nat.eqb_refl. by rewrite !mul_one_l.
    + destruct (Nat.eqb_spec (a / post / m) (b / post / m)) as [E1|];
        [|by rewrite !mul_zero_l].
      destruct (Nat.eqb_spec (b / post mod m) (h (a / post mod m))) as [E2|];
        [|by rewrite mul_zero_r, mul_zero_l].
      destruct (Nat.eqb_spec (a mod post) (b mod post)) as [E3|];
        [|by rewrite mul_zero_r].
      exfalso. apply E. rewrite Eb at 1. rewrite E1, E2, E3. reflexivity.
Qed.
End Digits.

(** ** Exchanging two neighbours of an ordering *)



Section Swaps.
Import Cplx Np SpecMat Expand Perm.








End Swaps.

(** ** Tracking a basis state through reorderings *)

Section ListAux.
Import Cplx Np SpecMat Expand Perm.

End ListAux.

Section Track.

Import Cplx Np SpecMat Expand Perm.
Variables d N : nat.











End Track.

Section LiftAux.
Import Cplx Np SpecMat Expand Perm.

Lemma lift_index_compose m post h q r s :
  r < m -> s < post ->
  lift_index m post h ((q * m + r) * post + s) = (q * m + h r) * post + s.
Proof.
  intros Hr Hs. unfold lift_index.
  set (a := (q * m + r) * post + s).
  assert (a / post = q * m + r) as ->
    by (symmetry; apply (Nat.div_unique a post (q * m + r) s); subst a; lia).
  assert (a mod post = s) as ->
    by (symmetry; apply (Nat.mod_unique a post (q * m + r) s); subst a; lia).
  assert ((q * m + r) / m = q) as ->
    by (symmetry; apply (Nat.div_unique _ m q r); lia).
  assert ((q * m + r) mod m = r) as ->
    by (symmetry; apply (Nat.mod_unique _ m q r); lia).
  reflexivity.
Qed.
End LiftAux.

Section TrackStep.

Import Cplx Np SpecMat Expand Perm.
Variables d N : nat.



End TrackStep.

(** ** The reordering loop on equal dimensions *)

Section LoopAux.
Import Cplx Np SpecMat Expand Perm.


End LoopAux.

Section UniformLoop.

Import Cplx Np SpecMat Expand Perm.
Variables d N : nat.
Variable cur0 : list nat.



End UniformLoop.

Section SortAux.
Import Cplx Np SpecMat Expand Perm.

End SortAux.

Section UniformSort.

Import Cplx Np SpecMat Expand Perm.
Variables d N : nat.
Variable cur0 : list nat.


Hypothesis cur0_perm : cur0 ≡ₚ seq 0 N.



End UniformSort.

Section UniformMain.
Import Cplx Np SpecMat Expand Perm.

End UniformMain.

(** ** Canonical order, and a run on equal dimensions *)

Section Canonical.
Import Cplx Np SpecMat Expand Perm.




End Canonical.

(** ** Preconditions of the Pauli operators, and the Hamiltonian
    superoperator *)

Section MoreOperators.
Import Cplx Np SpecMat.

(** The Pauli operators are defined only from two levels up: on an SCQubit
    of dimension below 2 each of the three properties fails its assertion. *)
Theorem pauli_requires_two_levels (self : instance) :
  isinstance_SCQubit self = true -> dim self < 2 ->
  SCQubit.pauliX self = Raise AssertionError /\
  SCQubit.pauliY self = Raise AssertionError /\
  SCQubit.pauliZ self = Raise AssertionError.
Proof.
  intros Hc Hd. unfold SCQubit.pauliX, SCQubit.pauliY, SCQubit.pauliZ,
    SCQubit.assert_dim. rewrite Hc.
  destruct (Nat.ltb_spec 1 (dim self)); [lia|]. auto.
Qed.

Lemma pauli_requires_two_levels_witness :
  let self := SCQubit.new 1 0 0 None None None in
  SCQubit.pauliX self = Raise AssertionError /\
  SCQubit.pauliY self = Raise AssertionError /\
  SCQubit.pauliZ self = Raise AssertionError.
Proof.
  apply (pauli_requires_two_levels (SCQubit.new 1 0 0 None None None)).
  - reflexivity.
  - simpl. lia.
Defined.

(** For a Hamiltonian built from a square matrix [H], [superOpColStack()]
    on the lab-frame matrix returns [(conj(H) kron I) - (I kron H)]; asked
    for the interaction-frame matrix before any frame transformation it
    fails, that matrix being [None]. *)
Theorem hamiltonian_superOpColStack (H : ndarray) :
  nrows H = ncols H ->
  (exists S,
     Hamiltonian.superOpColStack (Hamiltonian.new H) false = Ok S /\
     same S (mat_sub (kron (conj H) (eye (nrows H))) (kron (eye (nrows H)) H))) /\
  Hamiltonian.superOpColStack (Hamiltonian.new H) true = Raise AttributeError.
Proof.
  intros Hsq. split; [|reflexivity].
  unfold Hamiltonian.superOpColStack, Hamiltonian.new.
  cbn [Hamiltonian.matrix Hamiltonian.dim bind].
  destruct (broadcast2_same_shape Cplx.sub
              (kron (conj H) (eye (nrows H))) (kron (eye (nrows H)) H))
    as (S & HS & Hr & Hc & Hi).
  { cbn [nrows kron conj eye]. lia. }
  { cbn [ncols kron conj eye]. rewrite Hsq. lia. }
  exists S. split; [exact HS|]. unfold same, mat_sub. cbn [nrows ncols item].
  split; [exact Hr|]. split; [exact Hc|].
  intros a b Ha Hb. apply Hi; [by rewrite <- Hr|by rewrite <- Hc].
Qed.

Lemma hamiltonian_superOpColStack_witness :
  (exists S,
     Hamiltonian.superOpColStack (Hamiltonian.new (eye 2)) false = Ok S /\
     same S (mat_sub (kron (conj (eye 2)) (eye 2)) (kron (eye 2) (eye 2)))) /\
  Hamiltonian.superOpColStack (Hamiltonian.new (eye 2)) true
    = Raise AttributeError.
Proof. apply (hamiltonian_superOpColStack (eye 2)). reflexivity. Defined.
End MoreOperators.

(** ** Sums of scalars *)

Section SumFacts.
Import Cplx.

Lemma sum_add n f g :
  sum n (fun m => add (f m) (g m)) = add (sum n f) (sum n g).
Proof.
  induction n as [|n IH]; simpl.
  - apply C_eq; simpl; lra.
  - rewrite IH. apply C_eq; simpl; lra.
Qed.

Lemma sum_sub n f g :
  sum n (fun m => sub (f m) (g m)) = sub (sum n f) (sum n g).
Proof.
  induction n as [|n IH]; simpl.
  - apply C_eq; simpl; lra.
  - rewrite IH. apply C_eq; simpl; lra.
Qed.

Lemma sum_mul_l n c f :
  sum n (fun m => mul c (f m)) = mul c (sum n f).
Proof.
  induction n as [|n IH]; simpl.
  - apply C_eq; simpl; lra.
  - rewrite IH. apply C_eq; simpl; lra.
Qed.

Lemma sum_mul_r n c f :
  sum n (fun m => mul (f m) c) = mul (sum n f) c.
Proof.
  induction n as [|n IH]; simpl.
  - apply C_eq; simpl; lra.
  - rewrite IH. apply C_eq; simpl; lra.
Qed.

(** [sum_a delta(a, c) * f(a) = f(c)] *)
Lemma sum_delta_l n c f :
  c < n ->
  sum n (fun a => mul (if a =? c then one else zero) (f a)) = f c.
Proof.
  intros Hc. rewrite (sum_single _ _ c).
  - rewrite Nat.eqb_refl. apply mul_one_l.
  - exact Hc.
  - intros m Hm Hne. destruct (Nat.eqb_spec m c); [done|apply mul_zero_l].
Qed.

Lemma sum_delta_r n c f :
  c < n ->
  sum n (fun a => mul (f a) (if a =? c then one else zero)) = f c.
Proof.
  intros Hc. rewrite (sum_single _ _ c).
  - rewrite Nat.eqb_refl. apply mul_one_r.
  - exact Hc.
  - intros m Hm Hne. destruct (Nat.eqb_spec m c); [done|apply mul_zero_r].
Qed.

Lemma mul_comm a b : mul a b = mul b a.
Proof. apply C_eq; simpl; lra. Qed.

Lemma index_pair d a b : b < d -> (a * d + b) / d = a /\ (a * d + b) mod d = b.
Proof.
  intros Hb. split; symmetry.
  - apply (Nat.div_unique _ d a b); lia.
  - apply (Nat.mod_unique _ d a b); lia.
Qed.

Lemma index_pair_lt d a b : a < d -> b < d -> a * d + b < d * d.
Proof. intros. nia. Qed.
End SumFacts.

(** ** Trace preservation of the superoperators *)

Section TracePreservation.
Import Cplx Np SpecMat.

(** The entries of [Dissipator.superOpColStack()] for a square [L]. *)
Lemma dissipator_superop_items (L : ndarray) (d : nat) :
  nrows L = d -> ncols L = d ->
  exists S,
    Dissipator.superOpColStack (Dissipator.new L) = Ok S /\
    nrows S = d * d /\ ncols S = d * d /\
    forall a b, a < d * d -> b < d * d ->
      item S a b = item (lindblad_term d L) a b.
Proof.
  intros Hr Hc.
  unfold Dissipator.superOpColStack, Dissipator.new, Dissipator.half.
  cbn [Dissipator.matrix Dissipator.dim].
  unfold dot. cbn [nrows ncols transpose conj]. rewrite Hr, Hc, Nat.eqb_refl.
  cbn [bind].
  match goal with
  | |- context [bind (subtract ?A ?B) _] =>
      destruct (broadcast2_same_shape Cplx.sub A B)
        as (S1 & HS1 & Hr1 & Hc1 & Hi1);
      [cbn [nrows ncols kron scale conj eye]; lia ..|]
  end.
  unfold subtract. rewrite HS1. cbn [bind].
  match goal with
  | |- context [broadcast2 Cplx.sub S1 ?B] =>
      destruct (broadcast2_same_shape Cplx.sub S1 B)
        as (S2 & HS2 & Hr2 & Hc2 & Hi2);
      [rewrite ?Hr1, ?Hc1; cbn [nrows ncols kron scale conj eye]; lia ..|]
  end.
  rewrite HS2. cbn [nrows ncols kron scale conj eye] in Hr1, Hc1.
  rewrite Hr in Hr1. rewrite Hc in Hc1.
  exists S2. split; [reflexivity|]. split; [lia|]. split; [lia|].
  intros a b Ha Hb.
  rewrite Hi2 by (rewrite ?Hr1, ?Hc1; assumption).
  rewrite Hi1 by (cbn [nrows ncols kron conj]; rewrite ?Hr, ?Hc; assumption).
  unfold lindblad_term, mat_sub, mat_mul, dagger.
  cbn [item nrows ncols kron scale conj eye transpose].
  rewrite ?Hr, ?Hc. reflexivity.
Qed.

(** The dissipator superoperator preserves the trace: for every square
    [L], each column of [superOpColStack()] sums to zero over the rows
    [(a, a)] that hold the diagonal of the stacked density matrix. *)
Theorem dissipator_superop_trace_preserving (L : ndarray) (d : nat) :
  nrows L = d -> ncols L = d ->
  exists S,
    Dissipator.superOpColStack (Dissipator.new L) = Ok S /\
    forall c e, c < d -> e < d ->
      sum d (fun a => item S (a * d + a) (c * d + e)) = zero.
Proof.
  intros Hr Hc.
  destruct (dissipator_superop_items L d Hr Hc) as (S & HS & _ & _ & Hi).
  exists S. split; [exact HS|]. intros c e Hcd Hed.
  set (G := sum d (fun m => mul (Cplx.conj (item L m c)) (item L m e))).
  rewrite (sum_ext _ _
    (fun a => sub (sub (mul (Cplx.conj (item L a c)) (item L a e))
                       (mul (of_R (1 / 2))
                          (mul (if a =? c then one else zero)
                               (sum d (fun m => mul (Cplx.conj (item L m a))
                                                    (item L m e))))))
                  (mul (of_R (1 / 2))
                     (mul (sum d (fun m => mul (item L m a)
                                               (Cplx.conj (item L m c))))
                          (if a =? e then one else zero))))).
  2:{ intros a Ha. rewrite Hi by (apply index_pair_lt; assumption).
      unfold lindblad_term, mat_sub, mat_mul, dagger.
      cbn [item nrows ncols kron scale conj eye transpose].
      rewrite Hr, Hc.
      destruct (index_pair d a a Ha) as [-> ->].
      destruct (index_pair d c e Hed) as [-> ->]. reflexivity. }
  rewrite !sum_sub, !sum_mul_l.
  rewrite (sum_delta_l d c
             (fun a => sum d (fun m => mul (Cplx.conj (item L m a)) (item L m e))))
    by exact Hcd.
  rewrite (sum_delta_r d e
             (fun a => sum d (fun m => mul (item L m a) (Cplx.conj (item L m c)))))
    by exact Hed.
  rewrite (sum_ext d (fun m => mul (item L m e) (Cplx.conj (item L m c)))
             (fun m => mul (Cplx.conj (item L m c)) (item L m e)))
    by (intros; apply mul_comm).
  fold G. apply C_eq; simpl; lra.
Qed.

Lemma dissipator_superop_trace_preserving_witness :
  exists S,
    Dissipator.superOpColStack (Dissipator.new (eye 2)) = Ok S /\
    forall c e, c < 2 -> e < 2 ->
      sum 2 (fun a => item S (a * 2 + a) (c * 2 + e)) = zero.
Proof.
  apply (dissipator_superop_trace_preserving (eye 2) 2); reflexivity.
Defined.
End TracePreservation.

Section HamiltonianTrace.
Import Cplx Np SpecMat Algebra.

Lemma hamiltonian_superop_items (H : ndarray) (d : nat) :
  nrows H = d -> ncols H = d ->
  exists S,
    Hamiltonian.superOpColStack (Hamiltonian.new H) false = Ok S /\
    nrows S = d * d /\ ncols S = d * d /\
    forall a b, a < d * d -> b < d * d ->
      item S a b =
      sub (mul (Cplx.conj (item H (a / d) (b / d)))
               (if a mod d =? b mod d then one else zero))
          (mul (if a / d =? b / d then one else zero)
               (item H (a mod d) (b mod d))).
Proof.
  intros Hr Hc.
  unfold Hamiltonian.superOpColStack, Hamiltonian.new.
  cbn [Hamiltonian.matrix Hamiltonian.dim bind]. rewrite Hr.
  destruct (broadcast2_same_shape Cplx.sub
              (kron (conj H) (eye d)) (kron (eye d) H))
    as (S & HS & HrS & HcS & Hi).
  { cbn [nrows kron conj eye]. lia. }
  { cbn [ncols kron conj eye]. lia. }
  exists S. split; [exact HS|].
  cbn [nrows ncols kron conj eye] in HrS, HcS, Hi.
  rewrite Hr in HrS, Hi. rewrite Hc in HcS, Hi.
  split; [exact HrS|]. split; [lia|].
  intros a b Ha Hb. rewrite Hi by lia.
  cbn [item kron conj eye nrows ncols]. rewrite Hr, Hc. reflexivity.
Qed.

(** The superoperator of a Hermitian Hamiltonian preserves the trace: for
    a Hermitian [H], each column of [Hamiltonian.superOpColStack()] sums to
    zero over the rows [(a, a)] of the diagonal of the stacked density
    matrix. *)
Theorem hamiltonian_superop_trace_preserving (H : ndarray) (d : nat) :
  nrows H = d -> hermitian H ->
  exists S,
    Hamiltonian.superOpColStack (Hamiltonian.new H) false = Ok S /\
    forall c e, c < d -> e < d ->
      sum d (fun a => item S (a * d + a) (c * d + e)) = zero.
Proof.
  intros Hr (_ & Hsq & Hherm).
  unfold dagger in Hsq, Hherm. cbn [nrows ncols transpose conj item] in Hsq, Hherm.
  assert (ncols H = d) as Hc by lia.
  destruct (hamiltonian_superop_items H d Hr Hc) as (S & HS & _ & _ & Hi).
  exists S. split; [exact HS|]. intros c e Hcd Hed.
  rewrite (sum_ext _ _
    (fun a => sub (mul (Cplx.conj (item H a c)) (if a =? e then one else zero))
                  (mul (if a =? c then one else zero) (item H a e)))).
  2:{ intros a Ha. rewrite Hi by (apply index_pair_lt; assumption).
      destruct (index_pair d a a Ha) as [-> ->].
      destruct (index_pair d c e Hed) as [-> ->]. reflexivity. }
  rewrite sum_sub.
  rewrite (sum_delta_r d e (fun a => Cplx.conj (item H a c))) by exact Hed.
  rewrite (sum_delta_l d c (fun a => item H a e)) by exact Hcd.
  rewrite (Hherm c e) by lia. apply C_eq; simpl; lra.
Qed.

Lemma hamiltonian_superop_trace_preserving_witness :
  exists S,
    Hamiltonian.superOpColStack (Hamiltonian.new (eye 2)) false = Ok S /\
    forall c e, c < 2 -> e < 2 ->
      sum 2 (fun a => item S (a * 2 + a) (c * 2 + e)) = zero.
Proof.
  apply (hamiltonian_superop_trace_preserving (eye 2) 2); [reflexivity|].
  unfold hermitian, same, dagger. cbn [nrows ncols item transpose conj eye].
  repeat split. intros a b Ha Hb. rewrite (Nat.eqb_sym b a).
  destruct (a =? b); apply C_eq; simpl; lra.
Defined.
End HamiltonianTrace.

Section Decay.
Import Cplx Np SpecMat Algebra.

(** The entries of [T1Dissipator]: the lowering operator scaled by
    [1/sqrt(T1)], or by 0 for an infinite [T1]. *)
Lemma T1Dissipator_items (self : instance) :
  isinstance_SCQubit self = true -> 1 <= dim self ->
  exists L,
    SCQubit.T1Dissipator self = Ok L /\
    nrows L = dim self /\ ncols L = dim self /\
    forall a b, a < dim self -> b < dim self ->
      item L a b =
      if b =? a + 1
      then of_R (match T1 self with
                 | Some t => Binary64.inv_sqrt t
                 | None => 0
                 end * Binary64.sqrt_nat b)
      else zero.
Proof.
  intros Hc Hd.
  assert (isinstance_SNO self = true) as Hs.
  { unfold isinstance_SCQubit in Hc. unfold isinstance_SNO.
    destruct (cls self); [discriminate|reflexivity|reflexivity]. }
  destruct (ladder_items self Hs Hd)
    as (L & R & HL & _ & HrL & HcL & _ & _ & Hitem).
  unfold SCQubit.T1Dissipator. rewrite Hc, HL. cbn [bind].
  eexists. split; [reflexivity|]. cbn [nrows ncols item scale].
  split; [exact HrL|]. split; [exact HcL|].
  intros a b Ha Hb. destruct (Hitem a b Ha Hb) as [-> _].
  destruct (Nat.eqb_spec b (a + 1)); [apply mul_of_R|apply mul_zero_r].
Qed.

(** With an infinite [T1] (the constructor's default) there is no decay
    channel: [T1Dissipator] is the zero matrix and so is the superoperator of
    the [Dissipator] built from it. *)
Theorem T1Dissipator_infinite_T1 (self : instance) :
  isinstance_SCQubit self = true -> 1 <= dim self -> T1 self = None ->
  exists L S,
    SCQubit.T1Dissipator self = Ok L /\
    same L (zeros (dim self) (dim self)) /\
    Dissipator.superOpColStack (Dissipator.new L) = Ok S /\
    same S (zeros (dim self * dim self) (dim self * dim self)).
Proof.
  intros Hc Hd HT.
  destruct (T1Dissipator_items self Hc Hd) as (L & HL & Hr & Hcl & Hi).
  assert (forall a b, a < dim self -> b < dim self -> item L a b = zero) as Hz.
  { intros a b Ha Hb. rewrite Hi by assumption. rewrite HT.
    destruct (b =? a + 1); [|reflexivity]. apply C_eq; simpl; lra. }
  destruct (dissipator_superop_items L (dim self) Hr Hcl)
    as (S & HS & HrS & HcS & HiS).
  exists L, S. split; [exact HL|]. split.
  { unfold same. cbn [nrows ncols item zeros]. rewrite Hr, Hcl. auto. }
  split; [exact HS|].
  unfold same. cbn [nrows ncols item zeros]. rewrite HrS, HcS.
  split; [reflexivity|]. split; [reflexivity|].
  intros a b Ha Hb. rewrite HiS by assumption.
  assert (dim self <> 0) as Hnz by lia.
  assert (a / dim self < dim self) by (apply Nat.Div0.div_lt_upper_bound; lia).
  assert (b / dim self < dim self) by (apply Nat.Div0.div_lt_upper_bound; lia).
  pose proof (Nat.mod_upper_bound a (dim self) Hnz).
  pose proof (Nat.mod_upper_bound b (dim self) Hnz).
  unfold lindblad_term, mat_sub, mat_mul, dagger.
  cbn [item nrows ncols kron scale conj eye transpose]. rewrite Hr, Hcl.
  rewrite !Hz by assumption.
  rewrite !sum_zero.
  - apply C_eq; simpl; lra.
  - intros m Hm. rewrite !Hz by assumption. apply C_eq; simpl; lra.
  - intros m Hm. rewrite !Hz by assumption. apply C_eq; simpl; lra.
Qed.

Lemma T1Dissipator_infinite_T1_witness :
  let self := SCQubit.new 3 0 0 None None None in
  exists L S,
    SCQubit.T1Dissipator self = Ok L /\
    same L (zeros 3 3) /\
    Dissipator.superOpColStack (Dissipator.new L) = Ok S /\
    same S (zeros (3 * 3) (3 * 3)).
Proof.
  apply (T1Dissipator_infinite_T1 (SCQubit.new 3 0 0 None None None)).
  - reflexivity.
  - simpl. lia.
  - reflexivity.
Defined.


End Decay.

Section LadderAlgebra.
Import Cplx Np SpecMat Algebra.

Lemma dot_square_items n A B :
  nrows A = n -> ncols A = n -> nrows B = n -> ncols B = n ->
  exists M, dot A B = Ok M /\ nrows M = n /\ ncols M = n /\
    forall a b, item M a b = sum n (fun m => mul (item A a m) (item B m b)).
Proof.
  intros HrA HcA HrB HcB. unfold dot. rewrite HcA, HrB, Nat.eqb_refl.
  eexists. split; [reflexivity|]. cbn [nrows ncols item]. auto.
Qed.


End LadderAlgebra.

Section NumberAlgebra.
Import Cplx Np SpecMat Algebra.

(** The diagonal of [Hnat], entry by entry. *)
Lemma Hnat_entries (self : instance) :
  isinstance_SNO self = true ->
  exists H,
    SNO.Hnat self = Ok H /\
    nrows (Hamiltonian.matrix H) = dim self /\
    ncols (Hamiltonian.matrix H) = dim self /\
    forall k l, k < dim self -> l < dim self ->
      item (Hamiltonian.matrix H) k l =
      if k =? l then
        if k =? 0 then zero else SNO.Hnat_entry self k
      else zero.
Proof.
  intros Hc. unfold SNO.Hnat. rewrite Hc. unfold range.
  destruct (Nat.eq_dec (dim self) 0) as [Hz|Hnz].
  { rewrite Hz. simpl. eexists. split; [reflexivity|]. simpl.
    unfold QuantumSystem.zeros. rewrite Hz. simpl.
    repeat split; try reflexivity. intros; lia. }
  destruct (diag_loop (SNO.Hnat_entry self) (dim self - 1) 1
              (QuantumSystem.zeros self))
    as (H' & Hrun & Hr & Hcl & Hitem).
  { reflexivity. }
  { simpl. lia. }
  rewrite Hrun. simpl. eexists. split; [reflexivity|]. simpl.
  repeat split; try assumption.
  intros k l Hk Hl. rewrite Hitem. cbn [item QuantumSystem.zeros zeros].
  destruct (Nat.eqb_spec k l) as [<-|Hne]; cbn [andb]; [|reflexivity].
  destruct (Nat.leb_spec 1 k), (Nat.ltb_spec k (1 + (dim self - 1)));
    cbn [andb]; try lia.
  - destruct k; [lia|reflexivity].
  - replace k with 0 by lia. reflexivity.
Qed.

(** [Hnat] is the anharmonic-oscillator Hamiltonian in the number operator
    [N]: [omega * N + (delta / 2) * (N . N - N)]. *)
Theorem Hnat_in_number_operator (self : instance) :
  isinstance_SNO self = true ->
  exists H N NN,
    SNO.Hnat self = Ok H /\ SNO.numberOp self = Ok N /\ dot N N = Ok NN /\
    same (Hamiltonian.matrix H)
         (mat_add (scale (of_R (omega self)) N)
                  (scale (of_R (delta self / 2)) (mat_sub NN N))).
Proof.
  intros Hc.
  destruct (Hnat_entries self Hc) as (H & HH & HrH & HcH & HiH).
  destruct (numberOp_items self Hc) as (N & HN & HrN & HcN & HiN).
  cbn [nrows ncols number_diag] in HrN, HcN.
  destruct (dot_square_items (dim self) N N HrN HcN HrN HcN)
    as (NN & HNN & HrNN & HcNN & HiNN).
  exists H, N, NN. repeat (split; [assumption|]).
  unfold same, mat_add, mat_sub. cbn [nrows ncols item scale].
  rewrite HrH, HcH, HrN, HcN. split; [reflexivity|]. split; [reflexivity|].
  intros k l Hk Hl. rewrite HiH, HiNN by assumption.
  assert (forall a b, a < dim self -> b < dim self ->
            item N a b = if a =? b then of_nat a else zero) as HiN'.
  { intros a b Ha Hb. rewrite HiN by (rewrite ?HrN, ?HcN; assumption).
    reflexivity. }
  rewrite (HiN' k l Hk Hl).
  destruct (Nat.eqb_spec k l) as [<-|Hne].
  - rewrite (sum_single _ _ k); [|exact Hk|].
    2:{ intros m Hm Hmk. rewrite (HiN' k m Hk Hm).
        destruct (Nat.eqb_spec k m); [lia|apply mul_zero_l]. }
    rewrite (HiN' k k Hk Hk), Nat.eqb_refl.
    destruct k as [|[|[|k]]]; unfold SNO.Hnat_entry, of_nat.
    + apply C_eq; simpl; lra.
    + apply C_eq; simpl; lra.
    + apply C_eq; simpl; lra.
    + cbn [Nat.eqb]. rewrite minus_IZR, <- INR_IZR_INZ.
      generalize (INR (S (S (S k)))). intros x.
      apply C_eq; cbn [re im mul Cplx.add sub Cplx.opp of_R]; simpl; field.
  - rewrite sum_zero.
    + apply C_eq; simpl; lra.
    + intros m Hm. rewrite (HiN' k m Hk Hm), (HiN' m l Hm Hl).
      destruct (Nat.eqb_spec k m), (Nat.eqb_spec m l); try lia;
        rewrite ?mul_zero_l, ?mul_zero_r; reflexivity.
Qed.

Lemma Hnat_in_number_operator_witness :
  let self := SNO.new 3 5 (-1) None in
  exists H N NN,
    SNO.Hnat self = Ok H /\ SNO.numberOp self = Ok N /\ dot N N = Ok NN /\
    same (Hamiltonian.matrix H)
         (mat_add (scale (of_R 5) N) (scale (of_R (-1 / 2)) (mat_sub NN N))).
Proof.
  apply (Hnat_in_number_operator (SNO.new 3 5 (-1) None)). reflexivity.
Defined.

(** The entries of a level projector for a level inside [0 .. d-1]. *)
Lemma levelProjector_items (self : instance) (k : nat) :
  isinstance_SNO self = true -> k < dim self ->
  SNO.levelProjector self (Z.of_nat k) =
  Ok (mkarr (dim self) (dim self)
        (fun a b => if (a =? k) && (b =? k) then one else zero)).
Proof.
  intros Hc Hk. unfold SNO.levelProjector. rewrite Hc.
  rewrite setitem_of_nat by exact Hk. reflexivity.
Qed.

(** Level projectors are orthogonal idempotents:
    [levelProjector(k) . levelProjector(l)] is [levelProjector(k)] when
    [k = l] and the zero matrix otherwise. *)
Theorem levelProjector_products (self : instance) (k l : nat) :
  isinstance_SNO self = true -> k < dim self -> l < dim self ->
  exists Pk Pl M,
    SNO.levelProjector self (Z.of_nat k) = Ok Pk /\
    SNO.levelProjector self (Z.of_nat l) = Ok Pl /\
    dot Pk Pl = Ok M /\
    same M (if k =? l then Pk else zeros (dim self) (dim self)).
Proof.
  intros Hc Hk Hl.
  rewrite (levelProjector_items self k Hc Hk), (levelProjector_items self l Hc Hl).
  eexists _, _, _. split; [reflexivity|]. split; [reflexivity|].
  unfold dot. cbn [nrows ncols]. rewrite Nat.eqb_refl.
  split; [reflexivity|].
  unfold same. cbn [nrows ncols item].
  destruct (Nat.eqb_spec k l) as [<-|Hne]; cbn [nrows ncols item zeros];
    (split; [reflexivity|]); (split; [reflexivity|]); intros a b Ha Hb.
  - rewrite (sum_single _ _ k); [|exact Hk|].
    + rewrite !Nat.eqb_refl, Bool.andb_true_r. cbn [andb].
      destruct ((a =? k) && (b =? k)) eqn:E.
      * apply andb_prop in E as [-> ->]. apply mul_one_l.
      * destruct (a =? k), (b =? k); try discriminate;
          rewrite ?mul_zero_l, ?mul_zero_r; reflexivity.
    + intros m Hm Hmk. destruct (Nat.eqb_spec m k); [lia|].
      rewrite Bool.andb_false_r. apply mul_zero_l.
  - apply sum_zero. intros m Hm.
    destruct (Nat.eqb_spec m k), (Nat.eqb_spec m l); try lia;
      rewrite ?Bool.andb_false_r; cbn [andb];
      rewrite ?mul_zero_l, ?mul_zero_r; reflexivity.
Qed.

Lemma levelProjector_products_witness :
  let self := SNO.new 3 0 0 None in
  exists Pk Pl M,
    SNO.levelProjector self (Z.of_nat 1) = Ok Pk /\
    SNO.levelProjector self (Z.of_nat 2) = Ok Pl /\
    dot Pk Pl = Ok M /\
    same M (if 1 =? 2 then Pk else zeros 3 3).
Proof.
  apply (levelProjector_products (SNO.new 3 0 0 None) 1 2).
  - reflexivity.
  - simpl. lia.
  - simpl. lia.
Defined.

(** The level projectors resolve the identity and the number operator:
    entry by entry, [sum_k levelProjector(k) = I] and
    [sum_k k * levelProjector(k) = numberOp]. *)
Theorem levelProjector_resolution (self : instance) :
  isinstance_SNO self = true ->
  forall a b, a < dim self -> b < dim self ->
    sum (dim self)
        (fun k => item_of (SNO.levelProjector self (Z.of_nat k)) a b)
    = item (eye (dim self)) a b /\
    sum (dim self)
        (fun k => mul (of_nat k)
                      (item_of (SNO.levelProjector self (Z.of_nat k)) a b))
    = item_of (SNO.numberOp self) a b.
Proof.
  intros Hc a b Ha Hb.
  destruct (numberOp_items self Hc) as (N & HN & HrN & HcN & HiN).
  rewrite HN. cbn [item_of]. rewrite HiN by (rewrite ?HrN, ?HcN; assumption).
  cbn [item number_diag eye].
  assert (forall k, k < dim self ->
            item_of (SNO.levelProjector self (Z.of_nat k)) a b
            = if (a =? k) && (b =? k) then one else zero) as Hp.
  { intros k Hk. by rewrite (levelProjector_items self k Hc Hk). }
  split.
  - rewrite (sum_single _ _ a); [|exact Ha|].
    + rewrite Hp by exact Ha. rewrite Nat.eqb_refl. cbn [andb].
      by rewrite (Nat.eqb_sym b a).
    + intros m Hm Hne. rewrite Hp by exact Hm.
      destruct (Nat.eqb_spec a m); [lia|reflexivity].
  - rewrite (sum_single _ _ a); [|exact Ha|].
    + rewrite Hp by exact Ha. rewrite Nat.eqb_refl. cbn [andb].
      rewrite (Nat.eqb_sym b a).
      destruct (a =? b); [apply mul_one_r|apply mul_zero_r].
    + intros m Hm Hne. rewrite Hp by exact Hm.
      destruct (Nat.eqb_spec a m); [lia|apply mul_zero_r].
Qed.

Lemma levelProjector_resolution_witness :
  let self := SNO.new 3 0 0 None in
  sum 3 (fun k => item_of (SNO.levelProjector self (Z.of_nat k)) 2 2)
  = item (eye 3) 2 2 /\
  sum 3 (fun k => mul (of_nat k)
                    (item_of (SNO.levelProjector self (Z.of_nat k)) 2 2))
  = item_of (SNO.numberOp self) 2 2.
Proof.
  apply (levelProjector_resolution (SNO.new 3 0 0 None)).
  - reflexivity.
  - simpl. lia.
  - simpl. lia.
Defined.
End NumberAlgebra.

Section HermitianFacts.
Import Cplx Np SpecMat Algebra.

Lemma conj_mul x y : Cplx.conj (mul x y) = mul (Cplx.conj x) (Cplx.conj y).
Proof. apply C_eq; simpl; lra. Qed.

Lemma conj_add x y :
  Cplx.conj (Cplx.add x y) = Cplx.add (Cplx.conj x) (Cplx.conj y).
Proof. apply C_eq; simpl; lra. Qed.

Lemma conj_conj x : Cplx.conj (Cplx.conj x) = x.
Proof. apply C_eq; simpl; lra. Qed.

Lemma hermitian_intro d A :
  nrows A = d -> ncols A = d ->
  (forall a b, a < d -> b < d -> item A a b = Cplx.conj (item A b a)) ->
  hermitian A.
Proof.
  intros Hr Hc Hi. unfold hermitian, same, dagger, transpose, Np.conj.
  cbn [nrows ncols item]. rewrite Hr, Hc. repeat split. exact Hi.
Qed.

Lemma hermitian_elim A :
  hermitian A ->
  nrows A = ncols A /\
  forall a b, a < nrows A -> b < nrows A ->
    item A a b = Cplx.conj (item A b a).
Proof.
  unfold hermitian, same, dagger, transpose, Np.conj.
  cbn [nrows ncols item]. intros (Hr & Hc & Hi). split; [exact Hr|].
  intros a b Ha Hb. apply Hi; [exact Ha|]. by rewrite <- Hr.
Qed.

Lemma scale_real_hermitian c A :
  hermitian A -> hermitian (scale (of_R c) A).
Proof.
  intros H. apply hermitian_elim in H as [Hs Hi].
  apply (hermitian_intro (nrows A)); [reflexivity|by cbn [ncols scale]|].
  intros a b Ha Hb. cbn [item scale].
  rewrite conj_mul, conj_of_R. f_equal. by apply Hi.
Qed.

Lemma div_mod_lt a n m : a < n * m -> a / m < n /\ a mod m < m.
Proof.
  intros Ha. assert (m <> 0) by (intros ->; lia). split.
  - apply Nat.Div0.div_lt_upper_bound. lia.
  - by apply Nat.mod_upper_bound.
Qed.

Lemma kron_hermitian A B :
  hermitian A -> hermitian B -> hermitian (kron A B).
Proof.
  intros HA HB.
  apply hermitian_elim in HA as [HsA HiA].
  apply hermitian_elim in HB as [HsB HiB].
  apply (hermitian_intro (nrows A * nrows B)).
  - reflexivity.
  - cbn [ncols kron]. by rewrite <- HsA, <- HsB.
  - intros a b Ha Hb. cbn [item kron]. rewrite <- HsB.
    destruct (div_mod_lt a _ _ Ha), (div_mod_lt b _ _ Hb).
    rewrite conj_mul. f_equal; [by apply HiA|by apply HiB].
Qed.

(** The ladder operators are each other's adjoints entry by entry, for
    every number of levels. *)
Lemma ladder_adjoint (s : instance) L R :
  SNO.loweringOp s = Ok L -> SNO.raisingOp s = Ok R ->
  nrows L = ncols L /\ nrows R = nrows L /\ ncols R = nrows L /\
  forall a b, item R a b = Cplx.conj (item L b a).
Proof.
  unfold SNO.loweringOp, SNO.raisingOp.
  destruct (isinstance_SNO s); [|discriminate].
  intros [= <-] [= <-]. unfold diag.
  change (0 <=? 1)%Z with true. change (0 <=? -1)%Z with false.
  cbn [nrows ncols item]. repeat split.
  intros a b. destruct (a =? b + _); [|by rewrite conj_zero].
  destruct (Nat.lt_ge_cases b (dim s - 1)) as [Hb|Hb].
  - rewrite nth_sqrt_arange by exact Hb. by rewrite conj_of_R.
  - rewrite nth_overflow by (by rewrite length_sqrt_arange).
    by rewrite conj_zero.
Qed.

Lemma pauliZ_ok_inv s Z :
  SCQubit.pauliZ s = Ok Z -> isinstance_SCQubit s = true /\ 2 <= dim s.
Proof.
  unfold SCQubit.pauliZ, SCQubit.assert_dim.
  destruct (isinstance_SCQubit s); [|discriminate].
  destruct (Nat.ltb_spec 1 (dim s)); [|discriminate]. intros _. split; [reflexivity|lia].
Qed.
End HermitianFacts.

Section Hermiticity.
Import Cplx Np SpecMat Algebra.

(** The natural Hamiltonian and the number operator of a subsystem are
    Hermitian matrices. *)
Theorem natural_operators_hermitian (self : instance) :
  isinstance_SNO self = true ->
  exists H N,
    SNO.Hnat self = Ok H /\ SNO.numberOp self = Ok N /\
    hermitian (Hamiltonian.matrix H) /\ hermitian N.
Proof.
  intros Hc.
  destruct (Hnat_entries self Hc) as (H & HH & HrH & HcH & HiH).
  destruct (numberOp_items self Hc) as (N & HN & HrN & HcN & HiN).
  cbn [nrows ncols number_diag] in HrN, HcN.
  exists H, N. repeat (split; [assumption|]). split.
  - apply (hermitian_intro (dim self)); [assumption..|].
    intros a b Ha Hb. rewrite !HiH by assumption. rewrite (Nat.eqb_sym b a).
    destruct (Nat.eqb_spec a b) as [<-|]; [|by rewrite conj_zero].
    destruct (a =? 0); [by rewrite conj_zero|].
    unfold SNO.Hnat_entry. by repeat case_match; rewrite conj_of_R.
  - apply (hermitian_intro (dim self)); [assumption..|].
    intros a b Ha Hb. rewrite !HiN by (rewrite ?HrN, ?HcN; assumption).
    cbn [item number_diag]. rewrite (Nat.eqb_sym b a).
    destruct (Nat.eqb_spec a b) as [<-|]; [|by rewrite conj_zero].
    unfold of_nat. by rewrite conj_of_R.
Qed.

Lemma natural_operators_hermitian_witness :
  let self := SNO.new 3 5 (-1) None in
  exists H N,
    SNO.Hnat self = Ok H /\ SNO.numberOp self = Ok N /\
    hermitian (Hamiltonian.matrix H) /\ hermitian N.
Proof.
  apply (natural_operators_hermitian (SNO.new 3 5 (-1) None)). reflexivity.
Defined.

(** The three Pauli operators of a qubit with at least two levels are
    Hermitian. *)
Theorem pauli_hermitian (self : instance) :
  isinstance_SCQubit self = true -> 2 <= dim self ->
  exists X Y Z,
    SCQubit.pauliX self = Ok X /\ SCQubit.pauliY self = Ok Y /\
    SCQubit.pauliZ self = Ok Z /\
    hermitian X /\ hermitian Y /\ hermitian Z.
Proof.
  intros Hc Hd.
  rewrite (pauliX_item self Hc Hd), (pauliY_item self Hc Hd),
    (pauliZ_item self Hc Hd).
  eexists _, _, _. repeat (split; [reflexivity|]).
  split; [|split]; apply (hermitian_intro (dim self)); try reflexivity;
    intros a b Ha Hb; cbn [item];
    destruct a as [|[|a]], b as [|[|b]]; cbn [Nat.eqb andb];
    apply C_eq; simpl; lra.
Qed.

Lemma pauli_hermitian_witness :
  let self := SCQubit.new 3 0 0 None None None in
  exists X Y Z,
    SCQubit.pauliX self = Ok X /\ SCQubit.pauliY self = Ok Y /\
    SCQubit.pauliZ self = Ok Z /\
    hermitian X /\ hermitian Y /\ hermitian Z.
Proof.
  apply (pauli_hermitian (SCQubit.new 3 0 0 None None None)).
  - reflexivity.
  - simpl. lia.
Defined.

(** Whenever [createMat] succeeds, the interaction matrix it stores is
    Hermitian, for both interaction kinds and every real strength. *)
Theorem interaction_matrix_hermitian (self self' : Interaction.t) :
  Interaction.createMat self = Ok self' ->
  exists M, Interaction.matrix self' = Some M /\ hermitian M.
Proof.
  unfold Interaction.createMat.
  destruct (String.eqb (Interaction.interactionType self) "ZZ").
  - destruct (SCQubit.pauliZ (Interaction.system1 self)) as [zA|] eqn:EA;
      [|discriminate].
    destruct (SCQubit.pauliZ (Interaction.system2 self)) as [zB|] eqn:EB;
      [|discriminate].
    cbn [bind]. intros [= <-]. eexists. split; [reflexivity|].
    apply scale_real_hermitian, kron_hermitian.
    + destruct (pauliZ_ok_inv _ _ EA) as [Hc Hd].
      rewrite (pauliZ_item _ Hc Hd) in EA. injection EA as <-.
      apply (hermitian_intro (dim (Interaction.system1 self)));
        try reflexivity.
      intros a b Ha Hb; cbn [item];
        destruct a as [|[|a]], b as [|[|b]]; cbn [Nat.eqb andb];
        apply C_eq; simpl; lra.
    + destruct (pauliZ_ok_inv _ _ EB) as [Hc Hd].
      rewrite (pauliZ_item _ Hc Hd) in EB. injection EB as <-.
      apply (hermitian_intro (dim (Interaction.system2 self)));
        try reflexivity.
      intros a b Ha Hb; cbn [item];
        destruct a as [|[|a]], b as [|[|b]]; cbn [Nat.eqb andb];
        apply C_eq; simpl; lra.
  - destruct (String.eqb (Interaction.interactionType self) "FlipFlop");
      [|discriminate].
    destruct (SNO.loweringOp (Interaction.system1 self)) as [lA|] eqn:ElA;
      [|discriminate].
    destruct (SNO.raisingOp (Interaction.system2 self)) as [rB|] eqn:ErB;
      [|discriminate].
    destruct (SNO.raisingOp (Interaction.system1 self)) as [rA|] eqn:ErA;
      [|discriminate].
    destruct (SNO.loweringOp (Interaction.system2 self)) as [lB|] eqn:ElB;
      [|discriminate].
    cbn [bind].
    destruct (ladder_adjoint _ _ _ ElA ErA) as (HsA & HrA & HcA & HiA).
    destruct (ladder_adjoint _ _ _ ElB ErB) as (HsB & HrB & HcB & HiB).
    destruct (broadcast2_same_shape Cplx.add (kron lA rB) (kron rA lB))
      as (S & HS & Hr & Hc & Hi).
    { cbn [nrows kron]. by rewrite HrA, HrB. }
    { cbn [ncols kron]. by rewrite HcA, HcB, <- HsA, <- HsB. }
    unfold Np.add. rewrite HS. cbn [bind]. intros [= <-].
    eexists. split; [reflexivity|].
    apply scale_real_hermitian.
    cbn [nrows ncols kron] in Hr, Hc, Hi.
    apply (hermitian_intro (nrows lA * nrows lB)).
    + by rewrite Hr, HrB.
    + by rewrite Hc, HcB, <- HsA.
    + intros a b Ha Hb.
      rewrite !Hi by (rewrite ?HrB, ?HcB, <- ?HsA; assumption).
      cbn [item kron]. rewrite HrB, HcB, <- HsB.
      rewrite conj_add, !conj_mul, !HiA, !HiB, !conj_conj.
      apply C_eq; simpl; lra.
Qed.

Lemma interaction_matrix_hermitian_witness :
  let A := SNO.new 3 0 0 None in
  let B := SCQubit.new 2 0 0 None None None in
  exists self', Interaction.createMat
                  (Interaction.mk A B "FlipFlop" 2 None) = Ok self' /\
    exists M, Interaction.matrix self' = Some M /\ hermitian M.
Proof.
  eexists. split; [reflexivity|].
  eapply (interaction_matrix_hermitian
            (Interaction.mk (SNO.new 3 0 0 None)
               (SCQubit.new 2 0 0 None None None) "FlipFlop" 2 None)).
  reflexivity.
Defined.
End Hermiticity.

Section AddFacts.
Import Cplx Np SpecMat Algebra.

Lemma add_comm x y : Cplx.add x y = Cplx.add y x.
Proof. apply C_eq; simpl; lra. Qed.

Lemma broadcast_dim_comm n m : broadcast_dim n m = broadcast_dim m n.
Proof.
  unfold broadcast_dim.
  destruct (Nat.eqb_spec n m), (Nat.eqb_spec m n), (Nat.eqb_spec n 1),
    (Nat.eqb_spec m 1); try lia; try reflexivity; f_equal; lia.
Qed.

Lemma broadcast_dim_error n m e : broadcast_dim n m = Raise e -> e = ValueError.
Proof. unfold broadcast_dim. repeat case_match; congruence. Qed.

(** The broadcast length is the left length exactly when the right one is
    equal to it or is 1. *)
Lemma broadcast_dim_left n m :
  broadcast_dim n m = Ok n <-> m = n \/ m = 1.
Proof.
  unfold broadcast_dim.
  destruct (Nat.eqb_spec n m), (Nat.eqb_spec n 1), (Nat.eqb_spec m 1);
    split; intros H; try (injection H as H); try lia; try reflexivity;
    try discriminate; f_equal; lia.
Qed.

Lemma add_error A B e : Np.add A B = Raise e -> e = ValueError.
Proof.
  unfold Np.add, broadcast2.
  destruct (broadcast_dim (nrows A) (nrows B)) eqn:Er.
  - destruct (broadcast_dim (ncols A) (ncols B)) eqn:Ec; [discriminate|].
    cbn [bind]. intros [= <-]. by apply broadcast_dim_error in Ec.
  - cbn [bind]. intros [= <-]. by apply broadcast_dim_error in Er.
Qed.

Lemma add_shape A B S :
  Np.add A B = Ok S ->
  broadcast_dim (nrows A) (nrows B) = Ok (nrows S) /\
  broadcast_dim (ncols A) (ncols B) = Ok (ncols S).
Proof.
  unfold Np.add, broadcast2.
  destruct (broadcast_dim (nrows A) (nrows B)) eqn:Er; [|discriminate].
  destruct (broadcast_dim (ncols A) (ncols B)) eqn:Ec; [|discriminate].
  cbn [bind]. by intros [= <-].
Qed.
End AddFacts.

Section HamiltonianSum.
Import Cplx Np SpecMat Algebra.
Import Hamiltonian.

(** [h1 + h2] and [h2 + h1] have the same outcome: both raise the
    [ValueError] of shapes that do not broadcast, or both return a fresh
    Hamiltonian with the same matrix, the same [dim] and no interaction
    matrix. *)
Theorem hamiltonian_add_commutes (h1 h2 : Hamiltonian.t) :
  match __add__ h1 (Ham h2), __add__ h2 (Ham h1) with
  | Ok a, Ok b =>
      same (matrix a) (matrix b) /\ dim a = dim b /\
      interactionMatrix a = None /\ interactionMatrix b = None
  | Raise e1, Raise e2 => e1 = ValueError /\ e2 = ValueError
  | _, _ => False
  end.
Proof.
  unfold __add__, Np.add, broadcast2.
  rewrite (broadcast_dim_comm (nrows (matrix h2))),
    (broadcast_dim_comm (ncols (matrix h2))).
  destruct (broadcast_dim (nrows (matrix h1)) (nrows (matrix h2)))
    as [r|e] eqn:Er.
  - destruct (broadcast_dim (ncols (matrix h1)) (ncols (matrix h2)))
      as [c|e] eqn:Ec.
    + cbn [bind new matrix dim interactionMatrix nrows].
      repeat split. intros a b _ _. cbn [item]. apply add_comm.
    + cbn [bind]. apply broadcast_dim_error in Ec. by subst.
  - cbn [bind]. apply broadcast_dim_error in Er. by subst.
Qed.

(** [self += other] succeeds exactly when [other] broadcasts to the shape
    of [self] (each axis of [other] has the length of [self]'s, or 1);
    otherwise it raises [ValueError], also where [self + other] succeeds.
    When it succeeds the matrix is the one [self + other] computes, and
    [self] keeps its [dim] and its interaction matrix, which [+] drops. *)
Theorem iadd_succeeds_iff (self : Hamiltonian.t) (other : operand)
    (M : ndarray) :
  operand_matrix other = Some M ->
  let fits :=
    (nrows M = nrows (matrix self) \/ nrows M = 1) /\
    (ncols M = ncols (matrix self) \/ ncols M = 1) in
  (fits ->
   exists r r',
     __iadd__ self other = Ok r /\ __add__ self other = Ok r' /\
     matrix r = matrix r' /\
     nrows (matrix r) = nrows (matrix self) /\
     ncols (matrix r) = ncols (matrix self) /\
     dim r = dim self /\
     interactionMatrix r = interactionMatrix self /\
     interactionMatrix r' = None) /\
  (~ fits -> __iadd__ self other = Raise ValueError).
Proof.
  intros HM fits.
  assert (__iadd__ self other =
          (let* s := iadd (matrix self) M in
           Ok (mk s (interactionMatrix self) (dim self))) /\
          __add__ self other = (let* s := Np.add (matrix self) M in Ok (new s)))
    as [-> ->].
  { destruct other; simpl in HM; inversion HM; subst; split; reflexivity. }
  unfold iadd. split.
  - intros [Hr Hc].
    apply broadcast_dim_left in Hr, Hc.
    unfold Np.add, broadcast2. rewrite Hr, Hc. cbn [bind nrows ncols].
    rewrite !Nat.eqb_refl. cbn [andb bind].
    eexists _, _. repeat split.
  - intros Hn.
    destruct (Np.add (matrix self) M) as [S|e] eqn:E.
    + cbn [bind]. destruct (add_shape _ _ _ E) as [Hr Hc].
      destruct (Nat.eqb_spec (nrows S) (nrows (matrix self))) as [Er|Er];
        [|reflexivity].
      destruct (Nat.eqb_spec (ncols S) (ncols (matrix self))) as [Ec|Ec];
        [|reflexivity].
      exfalso. apply Hn. rewrite Er in Hr. rewrite Ec in Hc.
      apply broadcast_dim_left in Hr, Hc. by split.
    + cbn [bind]. apply add_error in E. by subst.
Qed.

Lemma iadd_succeeds_iff_witness :
  let self := new (eye 1) in
  let fits :=
    (nrows (eye 2) = nrows (matrix self) \/ nrows (eye 2) = 1) /\
    (ncols (eye 2) = ncols (matrix self) \/ ncols (eye 2) = 1) in
  (fits ->
   exists r r',
     __iadd__ self (Ham (new (eye 2))) = Ok r /\
     __add__ self (Ham (new (eye 2))) = Ok r' /\
     matrix r = matrix r' /\
     nrows (matrix r) = nrows (matrix self) /\
     ncols (matrix r) = ncols (matrix self) /\
     dim r = dim self /\
     interactionMatrix r = interactionMatrix self /\
     interactionMatrix r' = None) /\
  (~ fits -> __iadd__ self (Ham (new (eye 2))) = Raise ValueError).
Proof.
  apply (iadd_succeeds_iff (new (eye 1)) (Ham (new (eye 2))) (eye 2)).
  reflexivity.
Defined.
End HamiltonianSum.

Section InteractionOutcome.
Import Cplx Np SpecMat Algebra.
Import Interaction.

Lemma pauliZ_ok_iff s :
  is_ok (SCQubit.pauliZ s) = true <->
  isinstance_SCQubit s = true /\ 2 <= dim s.
Proof.
  split.
  - destruct (SCQubit.pauliZ s) eqn:E; [|discriminate]. intros _.
    by apply pauliZ_ok_inv in E.
  - intros [Hc Hd]. by rewrite (pauliZ_item s Hc Hd).
Qed.

Lemma pauliZ_shape s Z :
  SCQubit.pauliZ s = Ok Z ->
  nrows Z = dim s /\ ncols Z = dim s.
Proof.
  intros E. destruct (pauliZ_ok_inv _ _ E) as [Hc Hd].
  rewrite (pauliZ_item s Hc Hd) in E. by injection E as <-.
Qed.

Lemma ladder_ok_iff s :
  (is_ok (SNO.loweringOp s) = true <-> isinstance_SNO s = true) /\
  (is_ok (SNO.raisingOp s) = true <-> isinstance_SNO s = true).
Proof.
  unfold SNO.loweringOp, SNO.raisingOp.
  destruct (isinstance_SNO s); split; split; simpl; congruence.
Qed.

Lemma ladder_size s L R :
  SNO.loweringOp s = Ok L -> SNO.raisingOp s = Ok R ->
  nrows L = Nat.max 1 (dim s) /\ ncols L = Nat.max 1 (dim s) /\
  nrows R = Nat.max 1 (dim s) /\ ncols R = Nat.max 1 (dim s).
Proof.
  unfold SNO.loweringOp, SNO.raisingOp.
  destruct (isinstance_SNO s); [|discriminate].
  intros [= <-] [= <-]. unfold diag.
  change (0 <=? 1)%Z with true. change (0 <=? -1)%Z with false.
  cbn [nrows ncols]. rewrite length_sqrt_arange.
  change (Z.abs_nat 1) with 1. change (Z.abs_nat (-1)) with 1. lia.
Qed.

(** [createMat] succeeds exactly for kind ['ZZ'] between two SCQubits of at
    least two levels each and for kind ['FlipFlop'] between two systems that
    have ladder operators.  It then leaves the systems, the kind and the
    strength as they were and stores a square matrix whose size is the
    product of the two subsystem sizes (a subsystem of no levels counting as
    one, the size [np.diag] gives its ladder operators). *)
Theorem createMat_succeeds_iff (self : Interaction.t) :
  let A := system1 self in
  let B := system2 self in
  let k := interactionType self in
  (is_ok (createMat self) = true <->
   (k = "ZZ"%string /\
    isinstance_SCQubit A = true /\ isinstance_SCQubit B = true /\
    2 <= dim A /\ 2 <= dim B) \/
   (k = "FlipFlop"%string /\
    isinstance_SNO A = true /\ isinstance_SNO B = true)) /\
  (forall self',
     createMat self = Ok self' ->
     system1 self' = A /\ system2 self' = B /\
     interactionType self' = k /\
     interactionStrength self' = interactionStrength self /\
     exists M,
       matrix self' = Some M /\
       nrows M = Nat.max 1 (dim A) * Nat.max 1 (dim B) /\
       ncols M = Nat.max 1 (dim A) * Nat.max 1 (dim B)).
Proof.
  intros A B k. unfold createMat. fold A B k.
  destruct (String.eqb_spec k "ZZ") as [Hk|Hk].
  - pose proof (pauliZ_ok_iff A) as HA. pose proof (pauliZ_ok_iff B) as HB.
    destruct (SCQubit.pauliZ A) as [zA|] eqn:EA;
      [destruct (SCQubit.pauliZ B) as [zB|] eqn:EB|]; cbn [bind is_ok] in *.
    + split.
      * split; [intros _|reflexivity]. left.
        destruct (proj1 HA eq_refl), (proj1 HB eq_refl). auto.
      * intros self' [= <-]. cbn [set_matrix system1 system2 interactionType
          interactionStrength matrix]. repeat (split; [reflexivity|]).
        eexists. split; [reflexivity|]. cbn [nrows ncols scale kron].
        destruct (pauliZ_shape _ _ EA) as [-> ->].
        destruct (pauliZ_shape _ _ EB) as [-> ->].
        destruct (proj1 HA eq_refl), (proj1 HB eq_refl). lia.
      + split; [|discriminate]. split; [discriminate|].
        intros [(_ & _ & Hc & _ & Hd)|(Hk' & _)].
        * assert (false = true) by (apply HB; auto). discriminate.
        * rewrite Hk in Hk'. discriminate.
      + split; [|discriminate]. split; [discriminate|].
        intros [(_ & Hc & _ & Hd & _)|(Hk' & _)].
        * assert (false = true) by (apply HA; auto). discriminate.
        * rewrite Hk in Hk'. discriminate.
  - destruct (String.eqb_spec k "FlipFlop") as [Hf|Hf].
    + destruct (ladder_ok_iff A) as [HlA HrA].
      destruct (ladder_ok_iff B) as [HlB HrB].
      destruct (isinstance_SNO A) eqn:EcA.
      2:{ destruct (SNO.loweringOp A); cbn [is_ok] in HlA;
            [assert (false = true) by (by apply HlA); discriminate|].
          cbn [bind is_ok]. split; [|discriminate]. split; [discriminate|].
          intros [(Hk' & _)|(_ & ? & _)]; congruence. }
      destruct (isinstance_SNO B) eqn:EcB.
      2:{ destruct (SNO.loweringOp A) as [lA|]; cbn [bind].
          - destruct (SNO.raisingOp B); cbn [is_ok] in HrB;
              [assert (false = true) by (by apply HrB); discriminate|].
            cbn [bind is_ok]. split; [|discriminate]. split; [discriminate|].
            intros [(Hk' & _)|(_ & _ & ?)]; congruence.
          - cbn [is_ok]. split; [|discriminate]. split; [discriminate|].
            intros [(Hk' & _)|(_ & _ & ?)]; congruence. }
      destruct (SNO.loweringOp A) as [lA|] eqn:ElA;
        [|by assert (false = true) by (by apply HlA)].
      destruct (SNO.raisingOp A) as [rA|] eqn:ErA;
        [|by assert (false = true) by (by apply HrA)].
      destruct (SNO.loweringOp B) as [lB|] eqn:ElB;
        [|by assert (false = true) by (by apply HlB)].
      destruct (SNO.raisingOp B) as [rB|] eqn:ErB;
        [|by assert (false = true) by (by apply HrB)].
      cbn [bind].
      destruct (ladder_size _ _ _ ElA ErA) as (HA1 & HA2 & HA3 & HA4).
      destruct (ladder_size _ _ _ ElB ErB) as (HB1 & HB2 & HB3 & HB4).
      destruct (broadcast2_same_shape Cplx.add (kron lA rB) (kron rA lB))
        as (S & HS & Hr & Hc & Hi).
      { cbn [nrows kron]. by rewrite HA1, HA3, HB1, HB3. }
      { cbn [ncols kron]. by rewrite HA2, HA4, HB2, HB4. }
      unfold Np.add. rewrite HS. cbn [bind is_ok]. split.
      * split; [intros _|reflexivity]. right. auto.
      * intros self' [= <-]. cbn [set_matrix system1 system2 interactionType
          interactionStrength matrix]. repeat (split; [reflexivity|]).
        eexists. split; [reflexivity|]. cbn [nrows ncols scale].
        rewrite Hr, Hc. cbn [nrows ncols kron].
        by rewrite HA1, HA2, HB3, HB4.
    + cbn [is_ok]. split; [|discriminate]. split; [discriminate|].
      intros [(? & _)|(? & _)]; congruence.
Qed.

(** The matrix of an interaction is derived data.  The matrix handed to the
    constructor never survives: the constructor calls [createMat], which
    overwrites it or raises, so any two values of [interactionMat] give the
    same outcome.  And calling [createMat] again on a constructed
    interaction changes nothing. *)
Theorem interaction_matrix_is_derived
    (A B : instance) (kind : string) (g : R) (m1 m2 : option ndarray) :
  Interaction.new A B kind g m1 = Interaction.new A B kind g m2 /\
  forall self',
    Interaction.new A B kind g m1 = Ok self' -> createMat self' = Ok self'.
Proof.
  split.
  - unfold Interaction.new, createMat, set_matrix.
    cbn [system1 system2 interactionType interactionStrength].
    reflexivity.
  - intros self'. unfold Interaction.new, createMat.
    cbn [system1 system2 interactionType interactionStrength].
    destruct (String.eqb kind "ZZ") eqn:Ek.
    + destruct (SCQubit.pauliZ A) as [zA|] eqn:EA; [|discriminate].
      destruct (SCQubit.pauliZ B) as [zB|] eqn:EB; [|discriminate].
      cbn [bind]. intros [= <-].
      cbn [set_matrix system1 system2 interactionType interactionStrength].
      rewrite Ek, EA, EB. reflexivity.
    + destruct (String.eqb kind "FlipFlop") eqn:Ef; [|discriminate].
      destruct (SNO.loweringOp A) as [lA|] eqn:ElA; [|discriminate].
      destruct (SNO.raisingOp B) as [rB|] eqn:ErB; [|discriminate].
      destruct (SNO.raisingOp A) as [rA|] eqn:ErA; [|discriminate].
      destruct (SNO.loweringOp B) as [lB|] eqn:ElB; [|discriminate].
      cbn [bind].
      destruct (Np.add (kron lA rB) (kron rA lB)) as [S|] eqn:ES;
        [|discriminate].
      cbn [bind]. intros [= <-].
      cbn [set_matrix system1 system2 interactionType interactionStrength].
      rewrite Ek, Ef, ElA, ErB, ErA, ElB. cbn [bind]. rewrite ES. reflexivity.
Qed.
End InteractionOutcome.

(** ** [expand_hilbert_space] on every input *)

Section PermInvariant.
Import Cplx Np SpecMat Expand Perm Algebra.

Lemma swap_index_injective d1 d2 : injective_below (d1 * d2) (swap_index d1 d2).
Proof.
  intros a b Ha Hb E.
  rewrite <- (swap_index_inv d1 d2 a Ha), <- (swap_index_inv d1 d2 b Hb).
  by rewrite E.
Qed.

Lemma lift_index_injective pre m post h :
  (forall r, r < m -> h r < m) -> injective_below m h ->
  injective_below (pre * m * post) (lift_index m post h).
Proof.
  intros Hh Hinj a b Ha Hb E.
  destruct (decompose3 pre m post a Ha) as (_ & Hra & Hsa & Ea).
  destruct (decompose3 pre m post b Hb) as (_ & Hrb & Hsb & Eb).
  remember (a / post / m) as qa eqn:Hqa. remember (a / post mod m) as ra eqn:Era.
  remember (a mod post) as sa eqn:Esa.
  remember (b / post / m) as qb eqn:Hqb. remember (b / post mod m) as rb eqn:Erb.
  remember (b mod post) as sb eqn:Esb.
  clear Hqa Era Esa Hqb Erb Esb. subst a b.
  rewrite !lift_index_compose in E by assumption.
  assert (qa = qb /\ h ra = h rb /\ sa = sb) as (-> & Hr & ->)
    by (apply (compose3_unique m post); auto).
  by rewrite (Hinj ra rb Hra Hrb Hr).
Qed.

Lemma dot_ok_shape A B R : dot A B = Ok R -> ncols A = nrows B.
Proof.
  unfold dot. destruct (Nat.eqb_spec (ncols A) (nrows B)); [done|discriminate].
Qed.

(** One pass of the loop body, whenever it does not raise, multiplies
    [totP] by a permutation matrix of its own size. *)
Lemma swap_step_perm fl dims ct cur P cur' P' n g :
  swap_step fl dims ct (cur, P) = Ok (cur', P') ->
  perm_matrix n g P ->
  exists g', perm_matrix n g' P'.
Proof.
  unfold swap_step. intros H [HP Hinj].
  destruct (nonzero_first cur ct) as [curInd|]; [|discriminate].
  cbn [bind] in H.
  destruct (getitem dims (Z.of_nat curInd)) as [d1|]; [|discriminate].
  cbn [bind] in H.
  destruct (getitem dims (Z.of_nat curInd - 1)) as [d2|]; [|discriminate].
  cbn [bind] in H.
  destruct (calc_perm_mat_is_perm d1 d2) as (T & HT & HTperm).
  rewrite HT in H. cbn [bind] in H.
  match type of H with
  | bind ?m _ = _ => destruct m as [preDim|]; [|discriminate]
  end.
  cbn [bind] in H.
  match type of H with
  | bind ?m _ = _ => destruct m as [postDim|]; [|discriminate]
  end.
  cbn [bind] in H.
  match type of H with
  | bind ?m _ = _ => destruct m as [Q|] eqn:EQ; [|discriminate]
  end.
  cbn [bind] in H.
  match type of H with
  | bind ?m _ = _ => destruct m as [c''|]; [|discriminate]
  end.
  cbn [bind] in H. injection H as _ <-.
  pose proof (kron_eye_perm_eye preDim (d1 * d2) postDim _ T HTperm) as HK.
  pose proof (dot_ok_shape _ _ _ EQ) as Hs.
  destruct HK as (HKr & HKc & HKlt & HKi).
  destruct HP as (HPr & HPc & HPlt & HPi).
  rewrite HKc, HPr in Hs.
  assert (is_perm_of n (lift_index (d1 * d2) postDim (swap_index d1 d2))
            (kron (kron (eye preDim) T) (eye postDim))) as HK'.
  { rewrite <- Hs. repeat split; assumption. }
  assert (is_perm_of n g P) as HP' by (repeat split; assumption).
  destruct (dot_perm_perm n _ _ _ _ HK' HP') as (R & HR & HRperm).
  rewrite HR in EQ. injection EQ as <-.
  eexists. split; [exact HRperm|].
  intros a b Ha Hb E. cbn beta in E.
  destruct HK' as (_ & _ & HKlt' & _).
  apply Hinj in E; [|by apply HKlt'|by apply HKlt'].
  rewrite <- Hs in Ha, Hb.
  exact (lift_index_injective preDim (d1 * d2) postDim _
           (swap_index_lt d1 d2) (swap_index_injective d1 d2) a b Ha Hb E).
Qed.

Lemma while_loop_perm fl dims ct n fuel :
  forall cur P cur' P' g,
    while_loop fuel fl dims ct (cur, P) = Some (Ok (cur', P')) ->
    perm_matrix n g P ->
    exists g', perm_matrix n g' P'.
Proof.
  induction fuel as [|fuel IH]; intros cur P cur' P' g H HP; [discriminate|].
  cbn [while_loop fst] in H.
  destruct (getitem cur (Z.of_nat ct)) as [x|]; [|discriminate].
  destruct (Z.of_nat ct <? x)%Z.
  - destruct (swap_step fl dims ct (cur, P)) as [[c1 P1]|] eqn:E;
      [|discriminate].
    destruct (swap_step_perm _ _ _ _ _ _ _ _ _ E HP) as (g1 & HP1).
    exact (IH _ _ _ _ _ H HP1).
  - injection H as _ <-. by exists g.
Qed.

Lemma for_loop_perm fl dims n fuel cts :
  forall cur P cur' P' g,
    for_loop fuel fl dims cts (cur, P) = Some (Ok (cur', P')) ->
    perm_matrix n g P ->
    exists g', perm_matrix n g' P'.
Proof.
  induction cts as [|ct cts IH]; intros cur P cur' P' g H HP.
  - injection H as _ <-. by exists g.
  - cbn [for_loop] in H.
    destruct (while_loop fuel fl dims ct (cur, P)) as [[[c1 P1]|]|] eqn:E;
      try discriminate.
    destruct (while_loop_perm _ _ _ _ _ _ _ _ _ _ E HP) as (g1 & HP1).
    exact (IH _ _ _ _ _ H HP1).
Qed.

Lemma eye_perm_matrix n : perm_matrix n (fun a => a) (eye n).
Proof. split; [apply eye_is_perm|]. intros a b _ _ E. exact E. Qed.

(** The outcome of [expand_hilbert_space] is decided by the shape [r x c]
    of the operator alone: either every operator of that shape raises the
    same exception, or every one is returned conjugated by one and the same
    permutation of the basis states. *)
Lemma expand_by_shape (acting passive : list Z) (dims : list nat) (r c : nat) :
  (exists e, forall op,
      nrows op = r -> ncols op = c ->
      expand_hilbert_space op acting passive dims = Some (Raise e)) \/
  (exists dimEye g,
      bijective_below (r * dimEye) g /\ c * dimEye = r * dimEye /\
      forall op,
        nrows op = r -> ncols op = c ->
        exists R,
          expand_hilbert_space op acting passive dims = Some (Ok R) /\
          nrows R = r * dimEye /\ ncols R = r * dimEye /\
          forall a b, a < r * dimEye -> b < r * dimEye ->
            item R a b = item (kron op (eye dimEye)) (g a) (g b)).
Proof.
  unfold expand_hilbert_space.
  match goal with
  | |- context [match ?m with Ok _ => _ | Raise _ => _ end] =>
      destruct m as [dimEye|e]
  end; [|left; exists e; reflexivity].
  cbv zeta. cbn [nrows kron eye].
  set (cur := acting ++ passive).
  unfold range. rewrite Nat.sub_0_r.
  destruct (for_loop_total (float_indices acting passive) dims (length cur) 0
              cur (eye (r * dimEye)))
    as (res & Hres); [intros p v Hp; lia|reflexivity|].
  destruct res as [[cur' P]|e].
  2:{ left. exists e. intros op -> _. by rewrite Hres. }
  destruct (for_loop_perm _ _ _ _ _ _ _ _ _ _ Hres (eye_perm_matrix _))
    as (g & HP & Hinj).
  destruct (Nat.eq_dec (c * dimEye) (r * dimEye)) as [Hsq|Hsq].
  - right. exists dimEye, g. split; [|split; [exact Hsq|]].
    + split; [apply HP|exact Hinj].
    + intros op Hr Hc. rewrite Hr, Hres.
      destruct (conjugate_by_perm (r * dimEye) g P (kron op (eye dimEye)) HP)
        as (Q & HQ & HrQ & HcQ & HiQ).
      { cbn [nrows kron eye]. by rewrite Hr. }
      { cbn [ncols kron eye]. by rewrite Hc. }
      exists Q. rewrite HQ. auto.
  - left. exists ValueError. intros op Hr Hc. rewrite Hr, Hres.
    destruct (dot_perm_l (r * dimEye) g P (kron op (eye dimEye)) HP)
      as (Q & HQ & HrQ & HcQ & _).
    { cbn [nrows kron eye]. by rewrite Hr. }
    rewrite HQ. cbn [bind]. unfold dot.
    cbn [nrows ncols transpose kron eye] in *.
    destruct HP as (_ & -> & _). rewrite HcQ, Hc.
    destruct (Nat.eqb_spec (c * dimEye) (r * dimEye)); [lia|reflexivity].
Qed.
End PermInvariant.

Section SumReindex.
Import Cplx Np SpecMat Algebra.

Lemma add_assoc x y z : Cplx.add (Cplx.add x y) z = Cplx.add x (Cplx.add y z).
Proof. apply C_eq; simpl; lra. Qed.

(** Sums over a list of indices, to reorder the terms of [sum]. *)
Lemma sum_as_fold n f :
  sum n f = fold_right (fun k acc => Cplx.add (f k) acc) zero (seq 0 n).
Proof.
  induction n as [|n IH]; [reflexivity|].
  rewrite seq_S, fold_right_app. cbn [sum fold_right Nat.add]. rewrite IH.
  generalize (seq 0 n). intros l. induction l as [|x l IHl]; cbn [fold_right].
  - by rewrite add_zero_l, add_zero_r.
  - rewrite <- IHl. apply add_assoc.
Qed.

Lemma fold_add_perm f (l l' : list nat) :
  Permutation l l' ->
  fold_right (fun k acc => Cplx.add (f k) acc) zero l =
  fold_right (fun k acc => Cplx.add (f k) acc) zero l'.
Proof.
  induction 1 as [|x l l' _ IH|x y l|l l' l'' _ IH1 _ IH2]; cbn [fold_right].
  - reflexivity.
  - by rewrite IH.
  - rewrite <- !add_assoc. f_equal. apply add_comm.
  - by rewrite IH1.
Qed.

Lemma fold_add_map f (g : nat -> nat) (l : list nat) :
  fold_right (fun k acc => Cplx.add (f k) acc) zero (map g l) =
  fold_right (fun k acc => Cplx.add (f (g k)) acc) zero l.
Proof. induction l as [|x l IH]; cbn [map fold_right]; by rewrite ?IH. Qed.

Lemma bijective_seq_perm n g :
  bijective_below n g -> Permutation (map g (seq 0 n)) (seq 0 n).
Proof.
  intros [Hlt Hinj]. apply NoDup_Permutation_bis.
  - apply NoDup_ListNoDup, (NoDup_fmap_2_strong g).
    + intros x y Hx Hy. apply Hinj.
      * apply list_elem_of_In, in_seq in Hx. lia.
      * apply list_elem_of_In, in_seq in Hy. lia.
    + apply NoDup_ListNoDup, seq_NoDup.
  - by rewrite length_map.
  - intros x Hx. apply in_map_iff in Hx as (k & <- & Hk).
    apply in_seq in Hk. apply in_seq. specialize (Hlt k). lia.
Qed.

(** A sum may be taken in the order a permutation of its indices gives. *)
Lemma sum_reindex n g f :
  bijective_below n g -> sum n (fun k => f (g k)) = sum n f.
Proof.
  intros Hg. rewrite !sum_as_fold, <- fold_add_map.
  apply fold_add_perm, bijective_seq_perm, Hg.
Qed.

Lemma sum_app n p f :
  sum (n + p) f = Cplx.add (sum n f) (sum p (fun k => f (n + k))).
Proof.
  induction p as [|p IH].
  - rewrite Nat.add_0_r. cbn [sum]. by rewrite add_zero_r.
  - rewrite Nat.add_succ_r. cbn [sum]. rewrite IH. apply add_assoc.
Qed.

(** A sum over the indices of a Kronecker product, by blocks. *)
Lemma sum_blocks r m (F : nat -> nat -> C) :
  sum (r * m) (fun k => F (k / m) (k mod m)) =
  sum r (fun q => sum m (fun s => F q s)).
Proof.
  induction r as [|r IH]; [reflexivity|].
  replace (S r * m) with (r * m + m) by lia.
  rewrite sum_app, IH. cbn [sum]. f_equal.
  apply sum_ext. intros s Hs.
  destruct (index_pair m r s Hs) as [-> ->]. reflexivity.
Qed.
End SumReindex.

Section ExpandAlgebra.
Import Cplx Np SpecMat Expand Perm Algebra.

Lemma eye_hermitian n : hermitian (eye n).
Proof.
  apply (hermitian_intro n); try reflexivity.
  intros a b _ _. cbn [item eye]. rewrite (Nat.eqb_sym b a).
  destruct (a =? b); apply C_eq; simpl; lra.
Qed.

(** What a successful call says about the shape it was made on. *)
Lemma expand_ok_inv op acting passive dims R :
  expand_hilbert_space op acting passive dims = Some (Ok R) ->
  exists dimEye g,
    bijective_below (nrows op * dimEye) g /\
    ncols op * dimEye = nrows op * dimEye /\
    forall op',
      nrows op' = nrows op -> ncols op' = ncols op ->
      exists R',
        expand_hilbert_space op' acting passive dims = Some (Ok R') /\
        nrows R' = nrows op * dimEye /\ ncols R' = nrows op * dimEye /\
        forall a b, a < nrows op * dimEye -> b < nrows op * dimEye ->
          item R' a b = item (kron op' (eye dimEye)) (g a) (g b).
Proof.
  intros H.
  destruct (expand_by_shape acting passive dims (nrows op) (ncols op))
    as [(e & He)|(dimEye & g & Hg & Hsq & Hall)].
  - rewrite (He op eq_refl eq_refl) in H. discriminate.
  - exists dimEye, g. auto.
Qed.

(** Whether [expand_hilbert_space] returns or raises, and which exception,
    is decided by the shape [r x c] of the operator, never by its entries;
    and when it returns, the result is the matrix [operator kron I]
    with rows and columns reordered by one permutation [g] of the basis
    states, the same for every operator of that shape. *)
Theorem expand_outcome_depends_on_shape
    (acting passive : list Z) (dims : list nat) (r c : nat) :
  (exists e, forall op,
      nrows op = r -> ncols op = c ->
      expand_hilbert_space op acting passive dims = Some (Raise e)) \/
  (exists dimEye g,
      bijective_below (r * dimEye) g /\ c * dimEye = r * dimEye /\
      forall op,
        nrows op = r -> ncols op = c ->
        exists R,
          expand_hilbert_space op acting passive dims = Some (Ok R) /\
          nrows R = r * dimEye /\ ncols R = r * dimEye /\
          forall a b, a < r * dimEye -> b < r * dimEye ->
            item R a b = item (kron op (eye dimEye)) (g a) (g b)).
Proof. apply expand_by_shape. Qed.

(** The expansion of a Hermitian operator is Hermitian, for every choice of
    subsystems and dimensions on which the call returns. *)
Theorem expand_preserves_hermitian op acting passive dims R :
  hermitian op ->
  expand_hilbert_space op acting passive dims = Some (Ok R) ->
  hermitian R.
Proof.
  intros Hop H.
  destruct (expand_ok_inv _ _ _ _ _ H) as (dimEye & g & [Hlt _] & _ & Hall).
  destruct (Hall op eq_refl eq_refl) as (R' & HR' & Hr & Hc & Hi).
  rewrite H in HR'. injection HR' as <-.
  pose proof (kron_hermitian _ _ Hop (eye_hermitian dimEye)) as HT.
  apply hermitian_elim in HT as [_ HT]. cbn [nrows kron eye] in HT.
  apply (hermitian_intro (nrows op * dimEye)); [assumption..|].
  intros a b Ha Hb. rewrite !Hi by assumption. apply HT; by apply Hlt.
Qed.

Lemma expand_preserves_hermitian_witness :
  exists R,
    expand_hilbert_space (eye 4) [1%Z; 2%Z] [0%Z] [2; 2; 2] = Some (Ok R) /\
    hermitian R.
Proof.
  eexists. split; [reflexivity|].
  apply (expand_preserves_hermitian (eye 4) [1%Z; 2%Z] [0%Z] [2; 2; 2]).
  - apply eye_hermitian.
  - reflexivity.
Defined.



(** Expansion is linear: on the subsystems and dimensions on which it
    returns for [A], it returns for every [B] of the same shape, for [A + B]
    and for every multiple [c * A], with
    [expand(A + B) = expand(A) + expand(B)] and
    [expand(c * A) = c * expand(A)]. *)
Theorem expand_linear A B S (c : C) acting passive dims RA :
  nrows B = nrows A -> ncols B = ncols A ->
  Np.add A B = Ok S ->
  expand_hilbert_space A acting passive dims = Some (Ok RA) ->
  exists RB RS RR Rc,
    expand_hilbert_space B acting passive dims = Some (Ok RB) /\
    expand_hilbert_space S acting passive dims = Some (Ok RS) /\
    Np.add RA RB = Ok RR /\ same RS RR /\
    expand_hilbert_space (scale c A) acting passive dims = Some (Ok Rc) /\
    same Rc (scale c RA).
Proof.
  intros HrB HcB HS H.
  destruct (expand_ok_inv _ _ _ _ _ H) as (dimEye & g & [Hlt Hinj] & Hsq & Hall).
  destruct (Hall A eq_refl eq_refl) as (R' & HR' & HrA & HcA & HiA).
  rewrite H in HR'. injection HR' as <-.
  destruct (Hall B HrB HcB) as (RB & HRB & HrRB & HcRB & HiRB).
  destruct (broadcast2_same_shape Cplx.add A B (eq_sym HrB) (eq_sym HcB))
    as (S' & HS' & HrS & HcS & HiS).
  unfold Np.add in HS. rewrite HS in HS'. injection HS' as <-.
  destruct (Hall S HrS HcS) as (RS & HRS & HrRS & HcRS & HiRS).
  destruct (Hall (scale c A) eq_refl eq_refl) as (Rc & HRc & HrRc & HcRc & HiRc).
  destruct (broadcast2_same_shape Cplx.add RA RB) as (RR & HRR & HrRR & HcRR & HiRR).
  { by rewrite HrA, HrRB. }
  { by rewrite HcA, HcRB. }
  exists RB, RS, RR, Rc. repeat (split; [assumption|]).
  split; [|split; [assumption|]].
  - unfold same. rewrite HrRS, HcRS, HrRR, HcRR, HrA, HcA.
    split; [reflexivity|]. split; [reflexivity|].
    intros a b Ha Hb. rewrite HiRS by assumption.
    rewrite HiRR by (rewrite ?HrA, ?HcA; assumption).
    rewrite HiA, HiRB by assumption.
    pose proof (Hlt a Ha) as Hga. pose proof (Hlt b Hb) as Hgb.
    assert (dimEye <> 0) as Hd by (intros ->; lia).
    cbn [item kron eye nrows ncols]. rewrite HiS.
    + apply C_eq; simpl; lra.
    + apply Nat.Div0.div_lt_upper_bound. lia.
    + apply Nat.Div0.div_lt_upper_bound. lia.
  - unfold same. rewrite HrRc, HcRc. cbn [nrows ncols scale].
    rewrite HrA, HcA. split; [reflexivity|]. split; [reflexivity|].
    intros a b Ha Hb. rewrite HiRc by assumption. cbn [item scale].
    rewrite HiA by assumption. cbn [item kron eye nrows ncols scale].
    apply C_eq; simpl; lra.
Qed.

Lemma expand_linear_witness :
  exists S RA,
    Np.add (eye 4) (eye 4) = Ok S /\
    expand_hilbert_space (eye 4) [1%Z; 2%Z] [0%Z] [2; 2; 2] = Some (Ok RA) /\
    exists RB RS RR Rc,
      expand_hilbert_space (eye 4) [1%Z; 2%Z] [0%Z] [2; 2; 2] = Some (Ok RB) /\
      expand_hilbert_space S [1%Z; 2%Z] [0%Z] [2; 2; 2] = Some (Ok RS) /\
      Np.add RA RB = Ok RR /\ same RS RR /\
      expand_hilbert_space (scale j (eye 4)) [1%Z; 2%Z] [0%Z] [2; 2; 2]
      = Some (Ok Rc) /\
      same Rc (scale j RA).
Proof.
  eexists _, _. split; [reflexivity|]. split; [reflexivity|].
  apply (expand_linear (eye 4) (eye 4) _ j [1%Z; 2%Z] [0%Z] [2; 2; 2]);
    reflexivity.
Defined.

(** Expansion respects matrix products: for square [A] and [B] of one size,
    on the subsystems and dimensions on which the call returns for [A],
    [expand(A . B) = expand(A) . expand(B)]. *)
Theorem expand_multiplicative A B AB acting passive dims RA :
  nrows A = ncols A -> nrows B = nrows A -> ncols B = nrows A ->
  dot A B = Ok AB ->
  expand_hilbert_space A acting passive dims = Some (Ok RA) ->
  exists RB RAB RR,
    expand_hilbert_space B acting passive dims = Some (Ok RB) /\
    expand_hilbert_space AB acting passive dims = Some (Ok RAB) /\
    dot RA RB = Ok RR /\ same RAB RR.
Proof.
  intros Hsq HrB HcB HAB H.
  destruct (expand_ok_inv _ _ _ _ _ H) as (dimEye & g & Hg & _ & Hall).
  destruct (Hall A eq_refl eq_refl) as (R' & HR' & HrA & HcA & HiA).
  rewrite H in HR'. injection HR' as <-.
  destruct (Hall B HrB (eq_trans HcB Hsq)) as (RB & HRB & HrRB & HcRB & HiRB).
  unfold dot in HAB. rewrite <- Hsq, HrB, Nat.eqb_refl in HAB.
  injection HAB as <-.
  match type of Hall with
  | forall op', _ -> _ -> _ =>
      match goal with
      | |- context [expand_hilbert_space ?X _ _ _ = Some (Ok _) /\ dot _ _ = _ /\ _] =>
          destruct (Hall X) as (RAB & HRAB & HrRAB & HcRAB & HiRAB)
      end
  end.
  { reflexivity. }
  { cbn [ncols]. by rewrite HcB. }
  exists RB, RAB. unfold dot. rewrite HcA, HrRB, Nat.eqb_refl.
  eexists. repeat (split; [first [assumption|reflexivity]|]).
  unfold same. cbn [nrows ncols]. rewrite HrRAB, HcRAB, HrA, HcRB.
  split; [reflexivity|]. split; [reflexivity|].
  intros a b Ha Hb. rewrite HiRAB by assumption. cbn [item].
  destruct Hg as [Hlt Hinj].
  pose proof (Hlt a Ha) as Hga. pose proof (Hlt b Hb) as Hgb.
  assert (dimEye <> 0) as Hd by (intros ->; lia).
  rewrite (sum_ext _ _ (fun k =>
             mul (item (kron A (eye dimEye)) (g a) (g k))
                 (item (kron B (eye dimEye)) (g k) (g b)))).
  2:{ intros k Hk. by rewrite HiA, HiRB. }
  rewrite (sum_reindex _ g
             (fun k => mul (item (kron A (eye dimEye)) (g a) k)
                           (item (kron B (eye dimEye)) k (g b))))
    by (by split).
  cbn [item kron eye nrows ncols].
  rewrite (sum_blocks (nrows A) dimEye
             (fun q s =>
                mul (mul (item A (g a / dimEye) q)
                         (if g a mod dimEye =? s then one else zero))
                    (mul (item B q (g b / dimEye))
                         (if s =? g b mod dimEye then one else zero)))).
  rewrite <- sum_mul_r. apply sum_ext. intros q Hq.
  rewrite (sum_single _ _ (g a mod dimEye)).
  - rewrite Nat.eqb_refl. apply C_eq; simpl; lra.
  - by apply Nat.mod_upper_bound.
  - intros s Hs Hne. destruct (Nat.eqb_spec (g a mod dimEye) s); [lia|].
    apply C_eq; simpl; lra.
Qed.

Lemma expand_multiplicative_witness :
  exists AB RA,
    dot (eye 4) (eye 4) = Ok AB /\
    expand_hilbert_space (eye 4) [1%Z; 2%Z] [0%Z] [2; 2; 2] = Some (Ok RA) /\
    exists RB RAB RR,
      expand_hilbert_space (eye 4) [1%Z; 2%Z] [0%Z] [2; 2; 2] = Some (Ok RB) /\
      expand_hilbert_space AB [1%Z; 2%Z] [0%Z] [2; 2; 2] = Some (Ok RAB) /\
      dot RA RB = Ok RR /\ same RAB RR.
Proof.
  eexists _, _. split; [reflexivity|]. split; [reflexivity|].
  apply (expand_multiplicative (eye 4) (eye 4) _ [1%Z; 2%Z] [0%Z] [2; 2; 2]);
    reflexivity.
Defined.
End ExpandAlgebra.

(** ** An empty subsystem list: the float index array *)

Section FloatIndices.
Import Cplx Np SpecMat Expand Perm.

Lemma take_error {A : Type} (v : list A) (idx : list Z) (acc : list A) e :
  foldM (fun i acc =>
           let* n := norm_index (length v) i in
           match v !! n with
           | Some x => Ok (acc ++ [x])
           | None => Raise IndexError
           end) idx acc = Raise e ->
  e = IndexError.
Proof.
  revert acc. induction idx as [|i idx IH]; intros acc; cbn [foldM];
    [discriminate|].
  unfold norm_index.
  repeat match goal with
         | |- context [if ?b then _ else _] => destruct b
         end; cbn [bind];
    try (destruct (v !! _); cbn [bind]; [apply IH|congruence]);
    congruence.
Qed.

(** With [operatorSubSystems] or [eyeSubSystems] empty (or [None]),
    [curIndices] is a float64 array, which numpy does not take as an index
    array.  When the ordering starts [0, 1, ..., c-1] and has a larger index
    at position [c], the loop looks up [c], at position [p], and the call
    raises an [IndexError] as soon as the swap needs [preDim] ([p > 1]) or
    [postDim] ([p < len(dimensions) - 1]): only the swap of the first two of
    exactly two subsystems gets through. *)
Theorem expand_float_indices_raise
    (operator : ndarray) (acting passive : list Z) (dims : list nat)
    (c p : nat) (v : Z) :
  let cur := acting ++ passive in
  acting = [] \/ passive = [] ->
  (forall q, q < c -> cur !! q = Some (Z.of_nat q)) ->
  cur !! c = Some v -> (Z.of_nat c < v)%Z ->
  first_index (Z.of_nat c) cur = Some p ->
  p < length dims ->
  1 < p \/ p < length dims - 1 ->
  expand_hilbert_space operator acting passive dims = Some (Raise IndexError).
Proof.
  intros cur Hempty Hid Hv Hlt Hp Hpd Hneed. unfold expand_hilbert_space.
  assert (float_indices acting passive = true) as Hfl.
  { unfold float_indices. destruct Hempty as [-> | ->]; [reflexivity|].
    apply Bool.orb_true_r. }
  match goal with
  | |- context [match ?m with Ok _ => _ | Raise _ => _ end] =>
      destruct m as [dimEye|e] eqn:HdimEye
  end.
  2:{ destruct (0 <? length passive); [|discriminate].
      unfold take in HdimEye.
      destruct (foldM _ passive []) eqn:E in HdimEye; [discriminate|].
      injection HdimEye as <-. by rewrite (take_error _ _ _ _ E). }
  cbv zeta. fold cur. rewrite Hfl.
  pose proof (lookup_lt_Some _ _ _ Hv) as Hc.
  destruct (first_index_Some _ _ _ Hp) as [Hcp Hbefore].
  assert (c < p) as Hcltp.
  { destruct (Nat.lt_trichotomy p c) as [H|[->|H]]; [| |exact H].
    - rewrite (Hid p H) in Hcp. injection Hcp as E. lia.
    - rewrite Hv in Hcp. injection Hcp as E. lia. }
  unfold range. rewrite Nat.sub_0_r.
  replace (length cur) with (c + S (length cur - S c)) at 2 by lia.
  rewrite seq_app, for_loop_app, for_loop_identity_prefix by exact Hid.
  cbn [seq for_loop while_loop fst Nat.add].
  rewrite (getitem_of_nat _ _ _ Hv).
  destruct (Z.ltb_spec (Z.of_nat c) v); [|lia].
  unfold swap_step, nonzero_first. rewrite Hp. cbn [bind].
  destruct (lookup_lt_is_Some_2 dims p Hpd) as [d1 Hd1].
  destruct (lookup_lt_is_Some_2 dims (p - 1)) as [d2 Hd2]; [lia|].
  rewrite (getitem_of_nat _ _ _ Hd1). cbn [bind].
  replace (Z.of_nat p - 1)%Z with (Z.of_nat (p - 1)) by lia.
  rewrite (getitem_of_nat _ _ _ Hd2). cbn [bind].
  destruct (calc_perm_mat_is_perm d1 d2) as (T & HT & _).
  rewrite HT. cbn [bind]. unfold take_slice.
  destruct (Nat.ltb_spec 1 p) as [H1|H1]; [reflexivity|].
  cbn [bind].
  destruct (Z.ltb_spec (Z.of_nat p) (Z.of_nat (length dims) - 1)) as [H2|H2];
    [reflexivity|lia].
Qed.

(** Three qubits in the order [2, 0, 1] with no passive subsystem:
    subsystem 0 sits at position 1, and [postDim] is needed. *)
Lemma expand_float_indices_raise_witness :
  expand_hilbert_space (eye 8) [2%Z; 0%Z; 1%Z] [] [2; 2; 2]
  = Some (Raise IndexError).
Proof.
  apply (expand_float_indices_raise (eye 8) [2%Z; 0%Z; 1%Z] [] [2; 2; 2]
           0 1 2%Z).
  - right. reflexivity.
  - intros q Hq. lia.
  - reflexivity.
  - lia.
  - reflexivity.
  - simpl. lia.
  - right. simpl. lia.
Defined.
End FloatIndices.
